(** * Pacman search agents: graph search and adversarial search

    A shallow embedding of [pacai/student/search.py] and
    [pacai/student/multiagents.py].

    - Python exceptions and unbounded loops are made explicit by the
      [outcome] type.
    - The adversarial engines talk to the game through
      [getLegalActions], [generateSuccessor] and the evaluation function;
      every call of the last two is recorded in a trace, so that what a
      search expands and evaluates can be observed.
    - Scores are integers ([Z]); the initial bounds [-inf] and [inf] are the
      two extra points of [EZ]; the averaged values of expectimax are
      rationals ([Q]), the exact counterpart of Python's floats. *)

From Stdlib Require Import List ZArith QArith Lia Lqa Bool Arith PeanoNat.
Import ListNotations.

Set Implicit Arguments.

Close Scope Q_scope.
Open Scope nat_scope.

(** ** Python outcomes *)

Inductive exn : Type :=
| NotImplementedError
| IndexError
| ValueError
| ZeroModulo          (* ZeroDivisionError raised by [%] *)
| ZeroFloatDivision.  (* ZeroDivisionError raised by [/] on floats *)

Inductive outcome (A : Type) : Type :=
| Ok (a : A)
| Raise (e : exn)
| OutOfFuel.

Arguments Ok {A} a.
Arguments Raise {A} e.
Arguments OutOfFuel {A}.

Definition obind {A B : Type} (m : outcome A) (f : A -> outcome B) : outcome B :=
  match m with
  | Ok a => f a
  | Raise e => Raise e
  | OutOfFuel => OutOfFuel
  end.

Declare Scope outcome_scope.
Delimit Scope outcome_scope with outcome.
Notation "x <- m ;; k" := (obind m (fun x => k))
  (at level 61, m at next level, right associativity) : outcome_scope.

(** [lst[0]] *)
Definition first {A : Type} (l : list A) : outcome A :=
  match l with
  | [] => Raise IndexError
  | x :: _ => Ok x
  end.

(** [min(lst)] on integers: the first least element; [ValueError] on []. *)
Definition pymin (l : list Z) : outcome Z :=
  match l with
  | [] => Raise ValueError
  | x :: r => Ok (fold_left (fun m y => if (y <? m)%Z then y else m) r x)
  end.

(** [lst.sort()] on integers (the order of equal keys is not observable). *)
Fixpoint insert_sorted (x : Z) (l : list Z) : list Z :=
  match l with
  | [] => [x]
  | y :: r => if (x <=? y)%Z then x :: l else y :: insert_sorted x r
  end.

Definition sort (l : list Z) : list Z := fold_right insert_sorted [] l.

(** ** Directions *)

Inductive Directions : Type := NORTH | SOUTH | EAST | WEST | STOP.

Definition Directions_eqb (a b : Directions) : bool :=
  match a, b with
  | NORTH, NORTH | SOUTH, SOUTH | EAST, EAST | WEST, WEST | STOP, STOP => true
  | _, _ => false
  end.

(** [if Directions.STOP in legalActions: legalActions.remove(Directions.STOP)]:
    [list.remove] deletes the first occurrence only. *)
Fixpoint remove_first (x : Directions) (l : list Directions) : list Directions :=
  match l with
  | [] => []
  | y :: r => if Directions_eqb y x then r else y :: remove_first x r
  end.

Definition removeStop (legalActions : list Directions) : list Directions :=
  if existsb (Directions_eqb STOP) legalActions
  then remove_first STOP legalActions
  else legalActions.

(** ** Positions and the evaluators *)

Definition Position : Type := (Z * Z)%type.

(** Modelled from the spec: [pacai.core.distance.manhattan] is not part of the
    student sources; the spec calls it the Manhattan distance between two
    positions. *)
Definition manhattan (p q : Position) : Z :=
  (Z.abs (fst p - fst q) + Z.abs (snd p - snd q))%Z.

(** The accessors of a Pacman game state that the evaluators read:
    [getFood().asList()], the [_position] of every ghost state, the capsules
    and the score. *)
Record PacmanGameState : Type := mkPacmanGameState {
  getPacmanPosition : Position;
  getFood : list Position;
  getGhostStates : list Position;
  getCapsules : list Position;
  getScore : Z
}.

Definition isEmpty {A : Type} (l : list A) : bool :=
  match l with [] => true | _ => false end.

(** A list comprehension [[f(x) for x in l]] whose body may raise: the first
    exception ends it. *)
Fixpoint mapOutcome {A B : Type} (f : A -> outcome B) (l : list A)
  : outcome (list B) :=
  match l with
  | [] => Ok []
  | x :: r =>
      obind (f x) (fun y => obind (mapOutcome f r) (fun ys => Ok (y :: ys)))
  end.

(** [max(lst)] on integers: the first greatest element; [ValueError] on []. *)
Definition pymax (l : list Z) : outcome Z :=
  match l with
  | [] => Raise ValueError
  | x :: r => Ok (fold_left (fun m y => if (m <? y)%Z then y else m) r x)
  end.

(** [lst[i]] for an index [i >= 0]. *)
Definition item {A : Type} (l : list A) (i : nat) : outcome A :=
  match nth_error l i with
  | Some x => Ok x
  | None => Raise IndexError
  end.

(** [random.choice(lst)]: the element at a random index below [len(lst)];
    [IndexError] on []. The random number [draw] is reduced to an index. *)
Definition randomChoice {A : Type} (draw : nat) (l : list A) : outcome A :=
  match l with
  | [] => Raise IndexError
  | _ :: _ => item l (draw mod length l)
  end.

Module ReflexAgent.
Section Evaluation.

Variable generatePacmanSuccessor : PacmanGameState -> Directions -> PacmanGameState.

Local Open Scope Z_scope.
Local Open Scope outcome_scope.

(** [for ghostDistance in ghostDistances: if ghostDistance < 2: eval = -999999] *)
Definition avoidGhosts (ghostDistances : list Z) (eval : Z) : Z :=
  fold_left (fun eval ghostDistance =>
               if ghostDistance <? 2 then -999999 else eval)
            ghostDistances eval.

Definition evaluationFunction (currentGameState : PacmanGameState)
           (action : Directions) : outcome Z :=
  let successorGameState := generatePacmanSuccessor currentGameState action in
  let newPosition := getPacmanPosition successorGameState in
  let oldFood := getFood currentGameState in
  let newGhostStates := getGhostStates successorGameState in
  let ghostDistances := map (manhattan newPosition) newGhostStates in
  (* [if food:] holds of every food position: a pair is a non-empty tuple *)
  let foodDistances := map (manhattan newPosition) oldFood in
  let foodDistances := sort foodDistances in
  d <- first foodDistances ;;
  let eval := - d in
  Ok (avoidGhosts ghostDistances eval).

(** [gameState.getLegalActions()] of the reflex agent: Pacman's legal moves. *)
Variable getLegalMoves : PacmanGameState -> list Directions.

(** [[index for index in range(len(scores)) if scores[index] == bestScore]] *)
Definition bestIndicesOf (scores : list Z) (bestScore : Z) : list nat :=
  filter (fun index => nth index scores 0 =? bestScore)
         (seq 0 (length scores)).

(** [getAction]; [draw] is the random number behind [random.choice]. *)
Definition getAction (draw : nat) (gameState : PacmanGameState)
  : outcome Directions :=
  let legalMoves := getLegalMoves gameState in
  scores <- mapOutcome (evaluationFunction gameState) legalMoves ;;
  bestScore <- pymax scores ;;
  let bestIndices := bestIndicesOf scores bestScore in
  chosenIndex <- randomChoice draw bestIndices ;;
  item legalMoves chosenIndex.

End Evaluation.
End ReflexAgent.

Section BetterEvaluation.

Local Open Scope Z_scope.
Local Open Scope outcome_scope.

Definition sentinel : Z := -999999.

(** [for ghostDistance in ghostDistances: if ghostDistance < 1: eval = -999999] *)
Definition avoidGhosts (ghostDistances : list Z) (eval : Z) : Z :=
  fold_left (fun eval ghostDistance =>
               if ghostDistance <? 1 then sentinel else eval)
            ghostDistances eval.

Definition betterEvaluationFunction (currentGameState : PacmanGameState)
  : outcome Z :=
  let position := getPacmanPosition currentGameState in
  let foodList := getFood currentGameState in
  let ghosts := getGhostStates currentGameState in
  let capsules := getCapsules currentGameState in
  let ghostDistances := map (manhattan position) ghosts in
  if isEmpty foodList then Ok (getScore currentGameState)
  else
    let capsuleDistances := map (manhattan position) capsules in
    let foodDistances := map (manhattan position) foodList in
    let distances :=
      if isEmpty capsuleDistances then foodDistances else capsuleDistances in
    m <- pymin distances ;;
    let eval := - m in
    let eval := avoidGhosts ghostDistances eval in
    Ok (getScore currentGameState + eval).

End BetterEvaluation.

(** ** Graph search ([search.py]) *)

Section GraphSearch.

Variables State Action : Type.

(** Python's [==] on states, used by [node[0] in reached]. *)
Variable State_eq_dec : forall x y : State, {x = y} + {x <> y}.

Record SearchProblem : Type := mkSearchProblem {
  startingState : State;
  isGoal : State -> bool;
  successorStates : State -> list (State * Action * Z)
}.

(** node: [0] = state; [1] = actions from start to state; [2] = cost (unused) *)
Definition Node : Type := (State * list Action * Z)%type.

(** Modelled from the spec: [pacai.util.queue.Queue] is not part of the
    student sources; the spec calls the frontier of breadth-first search a
    FIFO frontier: [push] enqueues at the back, [pop] dequeues the oldest
    element. *)
Definition push (frontier : list Node) (node : Node) : list Node :=
  frontier ++ [node].

Definition pop (frontier : list Node) : option (Node * list Node) :=
  match frontier with
  | [] => None
  | node :: rest => Some (node, rest)
  end.

Definition depthFirstSearch (problem : SearchProblem)
  : outcome (option (list Action)) :=
  Raise NotImplementedError.

Definition uniformCostSearch (problem : SearchProblem)
  : outcome (option (list Action)) :=
  Raise NotImplementedError.

Definition aStarSearch (problem : SearchProblem)
           (heuristic : State -> SearchProblem -> Z)
  : outcome (option (list Action)) :=
  Raise NotImplementedError.

(** [for child in expand: frontier.push((child[0], node[1] + [child[1]], 0))] *)
Definition pushChildren (frontier : list Node) (actions : list Action)
           (expand : list (State * Action * Z)) : list Node :=
  fold_left (fun frontier child =>
               push frontier (fst (fst child), actions ++ [snd (fst child)], 0%Z))
            expand frontier.

(** The [while not frontier.isEmpty()] loop; one unit of fuel per iteration. *)
Fixpoint bfsLoop (fuel : nat) (problem : SearchProblem)
         (frontier : list Node) (reached : list State)
  : outcome (option (list Action)) :=
  match pop frontier with
  | None => Ok None
  | Some (node, frontier) =>
      match fuel with
      | O => OutOfFuel
      | S fuel' =>
          let state := fst (fst node) in
          let actions := snd (fst node) in
          if in_dec State_eq_dec state reached
          then bfsLoop fuel' problem frontier reached
          else if isGoal problem state then Ok (Some actions)
          else
            let reached := reached ++ [state] in
            let expand := successorStates problem state in
            bfsLoop fuel' problem (pushChildren frontier actions expand) reached
      end
  end.

Definition breadthFirstSearch (fuel : nat) (problem : SearchProblem)
  : outcome (option (list Action)) :=
  if isGoal problem (startingState problem) then Ok (Some [])
  else
    let frontier := push [] (startingState problem, [], 0%Z) in
    bfsLoop fuel problem frontier [].

End GraphSearch.

(** ** Values of the adversarial engines *)

(** A number, or one of the bounds [-inf] and [inf] of [cmath]. *)
Inductive ext (A : Type) : Type :=
| NegInf
| Fin (a : A)
| PosInf.

Arguments NegInf {A}.
Arguments Fin {A} a.
Arguments PosInf {A}.

Definition ext_ltb {A : Type} (ltb : A -> A -> bool) (x y : ext A) : bool :=
  match x, y with
  | NegInf, NegInf => false
  | NegInf, _ => true
  | Fin _, NegInf => false
  | Fin a, Fin b => ltb a b
  | Fin _, PosInf => true
  | PosInf, _ => false
  end.

Definition EZ : Type := ext Z.

(** [x < y], [x <= y], [max(x, y)] and [min(x, y)] of Python on [EZ];
    [max] and [min] return their first argument on a tie. *)
Definition EZ_ltb (x y : EZ) : bool := ext_ltb Z.ltb x y.
Definition EZ_leb (x y : EZ) : bool := negb (EZ_ltb y x).
Definition EZ_max (x y : EZ) : EZ := if EZ_ltb x y then y else x.
Definition EZ_min (x y : EZ) : EZ := if EZ_ltb y x then y else x.

Definition Q_ltb (x y : Q) : bool := negb (Qle_bool y x).

(** [sum(values)]: a left fold from 0. *)
Definition sumQ (values : list Q) : Q := fold_left Qplus values 0%Q.

(** [max(values)] on rationals: the first greatest element. *)
Definition pymaxQ (values : list Q) : outcome Q :=
  match values with
  | [] => Raise ValueError
  | x :: r => Ok (fold_left (fun m y => if Q_ltb m y then y else m) r x)
  end.

(** [float(s) / float(n)] *)
Definition floatDiv (s : Q) (n : nat) : outcome Q :=
  match n with
  | O => Raise ZeroFloatDivision
  | S _ => Ok (s / inject_Z (Z.of_nat n))%Q
  end.

(** ** The game interface and the traced computations *)

(** [pacai.core.gamestate.AbstractGameState], as far as the engines use it.
    Game states are immutable snapshots: each call of [getLegalActions]
    gives a list of its own. *)
Class AbstractGameState (GameState : Type) : Type := {
  getLegalActions : GameState -> nat -> list Directions;
  generateSuccessor : GameState -> nat -> Directions -> GameState;
  getNumAgents : GameState -> nat
}.

(** [pacai.agents.search.multiagent.MultiAgentSearchAgent]: the configured
    tree depth and evaluation function. *)
Class MultiAgentSearchAgent (GameState : Type) : Type := {
  getTreeDepth : nat;
  _evaluationFunction : GameState -> Z
}.

Section Traced.

Context {GameState : Type}.

(** What a search asks of its collaborators. *)
Inductive event : Type :=
| Evaluated (gameState : GameState)
| Generated (gameState : GameState) (agent : nat) (action : Directions).

(** A computation: the calls made so far, and how it ended. *)
Definition M (A : Type) : Type := (list event * outcome A)%type.

Definition ret {A : Type} (a : A) : M A := ([], Ok a).

Definition bind {A B : Type} (m : M A) (f : A -> M B) : M B :=
  match snd m with
  | Ok a => (fst m ++ fst (f a), snd (f a))
  | Raise e => (fst m, Raise e)
  | OutOfFuel => (fst m, OutOfFuel)
  end.

Definition lift {A : Type} (o : outcome A) : M A := ([], o).

Definition outOfFuel {A : Type} : M A := ([], OutOfFuel).

Context `{AbstractGameState GameState} `{MultiAgentSearchAgent GameState}.

(** [self._evaluationFunction(gameState)] *)
Definition evaluate (gameState : GameState) : M Z :=
  ([Evaluated gameState], Ok (_evaluationFunction gameState)).

(** [gameState.generateSuccessor(agent, action)] *)
Definition successor (gameState : GameState) (agent : nat)
           (action : Directions) : M GameState :=
  ([Generated gameState agent action],
   Ok (generateSuccessor gameState agent action)).

(** [(agent + 1) % gameState.getNumAgents()] *)
Definition nextAgentOf (gameState : GameState) (agent : nat) : M nat :=
  match getNumAgents gameState with
  | O => lift (Raise ZeroModulo)
  | S _ as n => ret ((agent + 1) mod n)
  end.

End Traced.

Arguments event GameState : clear implicits.
Arguments M GameState A : clear implicits.

Declare Scope M_scope.
Delimit Scope M_scope with M.
Notation "x <- m ;; k" := (bind m (fun x => k))
  (at level 61, m at next level, right associativity) : M_scope.

(** The number of calls of the evaluation function in a trace. *)
Definition evaluations {GameState : Type} (t : list (event GameState)) : nat :=
  length (filter (fun e => match e with Evaluated _ => true | _ => false end) t).

(** The actions a trace expands into successor branches. *)
Definition expanded {GameState : Type} (t : list (event GameState))
  : list Directions :=
  flat_map (fun e => match e with Generated _ _ a => [a] | _ => [] end) t.

(** ** Minimax *)

Module MinimaxAgent.
Section Agent.

Context {GameState : Type}
        `{AbstractGameState GameState} `{MultiAgentSearchAgent GameState}.

Local Open Scope M_scope.

(** [for action in legalActions: ... if value > bestValue: ...] of [maxValue] *)
Fixpoint maxLoop (child : Directions -> M GameState EZ)
         (legalActions : list Directions)
         (bestValue : EZ) (bestAction : option Directions)
  : M GameState (EZ * option Directions) :=
  match legalActions with
  | [] => ret (bestValue, bestAction)
  | action :: rest =>
      value <- child action ;;
      if EZ_ltb bestValue value
      then maxLoop child rest value (Some action)
      else maxLoop child rest bestValue bestAction
  end.

(** [for action in legalActions: ... if value < bestValue: ...] of [minValue] *)
Fixpoint minLoop (child : Directions -> M GameState EZ)
         (legalActions : list Directions)
         (bestValue : EZ) (bestAction : option Directions)
  : M GameState (EZ * option Directions) :=
  match legalActions with
  | [] => ret (bestValue, bestAction)
  | action :: rest =>
      value <- child action ;;
      if EZ_ltb value bestValue
      then minLoop child rest value (Some action)
      else minLoop child rest bestValue bestAction
  end.

Fixpoint maxValue (fuel : nat) (gameState : GameState) (agent depth : nat)
         {struct fuel} : M GameState (EZ * option Directions) :=
  match fuel with
  | O => outOfFuel
  | S fuel' =>
      let legalActions := removeStop (getLegalActions gameState agent) in
      if (depth =? getTreeDepth) || isEmpty legalActions
      then v <- evaluate gameState ;; ret (Fin v, None)
      else
        maxLoop
          (fun action =>
             successorGameState <- successor gameState agent action ;;
             nextAgent <- nextAgentOf gameState agent ;;
             r <- (if nextAgent =? 0
                   then maxValue fuel' successorGameState nextAgent (depth + 1)
                   else minValue fuel' successorGameState nextAgent depth) ;;
             ret (fst r))
          legalActions NegInf None
  end

with minValue (fuel : nat) (gameState : GameState) (agent depth : nat)
         {struct fuel} : M GameState (EZ * option Directions) :=
  match fuel with
  | O => outOfFuel
  | S fuel' =>
      let legalActions := removeStop (getLegalActions gameState agent) in
      if (depth =? getTreeDepth) || isEmpty legalActions
      then v <- evaluate gameState ;; ret (Fin v, None)
      else
        minLoop
          (fun action =>
             successorGameState <- successor gameState agent action ;;
             nextAgent <- nextAgentOf gameState agent ;;
             r <- (if nextAgent =? 0
                   then maxValue fuel' successorGameState nextAgent (depth + 1)
                   else minValue fuel' successorGameState nextAgent depth) ;;
             ret (fst r))
          legalActions PosInf None
  end.

Definition getAction (fuel : nat) (gameState : GameState)
  : M GameState (option Directions) :=
  r <- maxValue fuel gameState 0 0 ;;
  ret (snd r).

End Agent.
End MinimaxAgent.

(** ** Minimax with alpha-beta pruning *)

Module AlphaBetaAgent.
Section Agent.

Context {GameState : Type}
        `{AbstractGameState GameState} `{MultiAgentSearchAgent GameState}.

Local Open Scope M_scope.

(** The loop of [maxValue]: [alpha] is updated on every improvement, and
    the loop is left at the first [value >= beta]. *)
Fixpoint maxLoop (child : Directions -> EZ -> EZ -> M GameState EZ)
         (legalActions : list Directions)
         (bestValue : EZ) (bestAction : option Directions) (alpha beta : EZ)
  : M GameState (EZ * option Directions) :=
  match legalActions with
  | [] => ret (bestValue, bestAction)
  | action :: rest =>
      value <- child action alpha beta ;;
      let improved := EZ_ltb bestValue value in
      let bestValue' := if improved then value else bestValue in
      let bestAction' := if improved then Some action else bestAction in
      let alpha' := if improved then EZ_max alpha value else alpha in
      if EZ_leb beta value
      then ret (value, Some action)
      else maxLoop child rest bestValue' bestAction' alpha' beta
  end.

(** The loop of [minValue]: [beta] is updated on every improvement, and
    the loop is left at the first [value <= alpha]. *)
Fixpoint minLoop (child : Directions -> EZ -> EZ -> M GameState EZ)
         (legalActions : list Directions)
         (bestValue : EZ) (bestAction : option Directions) (alpha beta : EZ)
  : M GameState (EZ * option Directions) :=
  match legalActions with
  | [] => ret (bestValue, bestAction)
  | action :: rest =>
      value <- child action alpha beta ;;
      let improved := EZ_ltb value bestValue in
      let bestValue' := if improved then value else bestValue in
      let bestAction' := if improved then Some action else bestAction in
      let beta' := if improved then EZ_min beta value else beta in
      if EZ_leb value alpha
      then ret (value, Some action)
      else minLoop child rest bestValue' bestAction' alpha beta'
  end.

Fixpoint maxValue (fuel : nat) (gameState : GameState) (agent depth : nat)
         (alpha beta : EZ) {struct fuel}
  : M GameState (EZ * option Directions) :=
  match fuel with
  | O => outOfFuel
  | S fuel' =>
      let legalActions := removeStop (getLegalActions gameState agent) in
      if (depth =? getTreeDepth) || isEmpty legalActions
      then v <- evaluate gameState ;; ret (Fin v, None)
      else
        maxLoop
          (fun action alpha beta =>
             successorGameState <- successor gameState agent action ;;
             nextAgent <- nextAgentOf gameState agent ;;
             r <- (if nextAgent =? 0
                   then maxValue fuel' successorGameState nextAgent (depth + 1)
                                 alpha beta
                   else minValue fuel' successorGameState nextAgent depth
                                 alpha beta) ;;
             ret (fst r))
          legalActions NegInf None alpha beta
  end

with minValue (fuel : nat) (gameState : GameState) (agent depth : nat)
         (alpha beta : EZ) {struct fuel}
  : M GameState (EZ * option Directions) :=
  match fuel with
  | O => outOfFuel
  | S fuel' =>
      let legalActions := removeStop (getLegalActions gameState agent) in
      if (depth =? getTreeDepth) || isEmpty legalActions
      then v <- evaluate gameState ;; ret (Fin v, None)
      else
        minLoop
          (fun action alpha beta =>
             successorGameState <- successor gameState agent action ;;
             nextAgent <- nextAgentOf gameState agent ;;
             r <- (if nextAgent =? 0
                   then maxValue fuel' successorGameState nextAgent (depth + 1)
                                 alpha beta
                   else minValue fuel' successorGameState nextAgent depth
                                 alpha beta) ;;
             ret (fst r))
          legalActions PosInf None alpha beta
  end.

Definition getAction (fuel : nat) (gameState : GameState)
  : M GameState (option Directions) :=
  r <- maxValue fuel gameState 0 0 NegInf PosInf ;;
  ret (snd r).

End Agent.
End AlphaBetaAgent.

(** ** Expectimax *)

Module ExpectimaxAgent.
Section Agent.

Context {GameState : Type}
        `{AbstractGameState GameState} `{MultiAgentSearchAgent GameState}.

Local Open Scope M_scope.

(** [for action in legalActions: ... values.append(value)] *)
Fixpoint collect (child : Directions -> M GameState Q)
         (legalActions : list Directions) (values : list Q)
  : M GameState (list Q) :=
  match legalActions with
  | [] => ret values
  | action :: rest =>
      value <- child action ;;
      collect child rest (values ++ [value])
  end.

Fixpoint expectimaxValue (fuel : nat) (gameState : GameState)
         (agent depth : nat) {struct fuel} : M GameState Q :=
  match fuel with
  | O => outOfFuel
  | S fuel' =>
      let legalActions := removeStop (getLegalActions gameState agent) in
      if (depth =? getTreeDepth) || isEmpty legalActions
      then v <- evaluate gameState ;; ret (inject_Z v)
      else
        values <-
          collect
            (fun action =>
               successorGameState <- successor gameState agent action ;;
               nextAgent <- nextAgentOf gameState agent ;;
               let nextDepth := if nextAgent =? 0 then depth + 1 else depth in
               expectimaxValue fuel' successorGameState nextAgent nextDepth)
            legalActions [] ;;
        if agent =? 0
        then lift (pymaxQ values)
        else lift (floatDiv (sumQ values) (length legalActions))
  end.

(** The loop of [getAction]; [bestValue] starts at [-inf]. *)
Fixpoint bestLoop (fuel : nat) (gameState : GameState)
         (legalActions : list Directions)
         (bestValue : ext Q) (bestAction : option Directions)
  : M GameState (option Directions) :=
  match legalActions with
  | [] => ret bestAction
  | action :: rest =>
      successorGameState <- successor gameState 0 action ;;
      expectedValue <- expectimaxValue fuel successorGameState 1 0 ;;
      if ext_ltb Q_ltb bestValue (Fin expectedValue)
      then bestLoop fuel gameState rest (Fin expectedValue) (Some action)
      else bestLoop fuel gameState rest bestValue bestAction
  end.

Definition getAction (fuel : nat) (gameState : GameState)
  : M GameState (option Directions) :=
  let legalActions := removeStop (getLegalActions gameState 0) in
  if isEmpty legalActions then ret (Some STOP)
  else bestLoop fuel gameState legalActions NegInf None.

End Agent.
End ExpectimaxAgent.

(** ** Explicit game trees

    A finite game given as a tree: the legal actions of a node are the
    labels of its branches, whoever moves; the score of a node is what the
    evaluation function returns for it. *)

#[local] Set Warnings "-register-all".

Inductive GameTree : Type :=
| Node_ (score : Z) (moves : list (Directions * GameTree)).

Definition treeScore (t : GameTree) : Z :=
  match t with Node_ score _ => score end.

Definition treeMoves (t : GameTree) : list (Directions * GameTree) :=
  match t with Node_ _ moves => moves end.

Fixpoint treeLookup (action : Directions) (moves : list (Directions * GameTree))
         (default : GameTree) : GameTree :=
  match moves with
  | [] => default
  | (a, t) :: rest =>
      if Directions_eqb a action then t else treeLookup action rest default
  end.

Definition treeGame (numAgents : nat) : AbstractGameState GameTree := {|
  getLegalActions := fun t _ => map fst (treeMoves t);
  generateSuccessor := fun t _ action => treeLookup action (treeMoves t) t;
  getNumAgents := fun _ => numAgents
|}.

Definition treeAgent (depth : nat) : MultiAgentSearchAgent GameTree := {|
  getTreeDepth := depth;
  _evaluationFunction := treeScore
|}.

Definition leaf (score : Z) : GameTree := Node_ score [].

(** Two plies, branching factor two: after the first ghost reply of the
    second Pacman move (2 <= 3) the other reply cannot matter. *)
Definition prunableTree : GameTree :=
  Node_ 0 [ (NORTH, Node_ 0 [ (NORTH, leaf 3); (SOUTH, leaf 5) ]);
            (SOUTH, Node_ 0 [ (NORTH, leaf 2); (SOUTH, leaf 9) ]) ].

(** Pacman walled in: the only legal action is [STOP]. *)
Definition boxedInTree : GameTree := Node_ 7 [ (STOP, leaf 7) ].

(** A ghost reply averaged by expectimax. *)
Definition chanceTree : GameTree :=
  Node_ 0 [ (STOP, leaf 0);
            (WEST, Node_ 0 [ (NORTH, leaf 1); (SOUTH, leaf 4); (STOP, leaf 100) ]);
            (EAST, Node_ 0 [ (NORTH, leaf 3); (SOUTH, leaf 3) ]) ].

(** A game on integers with the same three legal actions everywhere, two
    agents, and scores that go up and down along the way. *)
Definition walkGame : AbstractGameState Z := {|
  getLegalActions := fun _ _ => [NORTH; STOP; SOUTH];
  generateSuccessor := fun s _ action =>
    match action with
    | NORTH => 2 * s + 1
    | SOUTH => 2 * s + 2
    | _ => s
    end%Z;
  getNumAgents := fun _ => 2
|}.

Definition walkAgent (depth : nat) : MultiAgentSearchAgent Z := {|
  getTreeDepth := depth;
  _evaluationFunction := fun s => ((5 * s) mod 7)%Z
|}.

(** States for the evaluators. *)

(** Food two cells away, a ghost on the neighbouring cell. *)
Definition adjacentGhostState : PacmanGameState :=
  mkPacmanGameState (0, 0)%Z [(2, 0)%Z] [(1, 0)%Z] [] 0%Z.

(** Food two cells away, a ghost on Pacman's own cell. *)
Definition caughtState : PacmanGameState :=
  mkPacmanGameState (0, 0)%Z [(2, 0)%Z] [(0, 0)%Z] [] 10%Z.

(** The same board and score with the ghost far away. *)
Definition safeState : PacmanGameState :=
  mkPacmanGameState (0, 0)%Z [(2, 0)%Z] [(5, 5)%Z] [] 10%Z.

(** All food eaten. *)
Definition noFoodState : PacmanGameState :=
  mkPacmanGameState (1, 1)%Z [] [(4, 4)%Z] [(3, 1)%Z] 510%Z.

(** A successor function for the reflex agent: Pacman moves one cell. *)
Definition movePacman (s : PacmanGameState) (action : Directions)
  : PacmanGameState :=
  let '(x, y) := getPacmanPosition s in
  let p := match action with
           | NORTH => (x, y + 1)
           | SOUTH => (x, y - 1)
           | EAST => (x + 1, y)
           | WEST => (x - 1, y)
           | STOP => (x, y)
           end%Z in
  mkPacmanGameState p (getFood s) (getGhostStates s) (getCapsules s) (getScore s).

(** ** Vocabulary of the statements *)

(** The arithmetic mean of a list of values. *)
Definition arithmeticMean (values : list Q) : Q :=
  (sumQ values / inject_Z (Z.of_nat (length values)))%Q.

Section Vocabulary.

Context {GameState : Type}
        `{AbstractGameState GameState} `{MultiAgentSearchAgent GameState}.

(** A trace that expands no no-op action. *)
Definition stopFree (t : list (event GameState)) : Prop :=
  ~ In STOP (expanded t).

(** Turn order: the agent that moves after [agent], and the ply depth of
    its move. *)
Definition nextIndex (gameState : GameState) (agent : nat) : nat :=
  (agent + 1) mod getNumAgents gameState.

Definition nextPly (gameState : GameState) (agent depth : nat) : nat :=
  if nextIndex gameState agent =? 0 then depth + 1 else depth.

(** A node of the game tree is a leaf of the search when the depth limit
    is reached or no action is left after the no-op is filtered out. *)
Definition isLeaf (gameState : GameState) (agent depth : nat) : bool :=
  (depth =? getTreeDepth) || isEmpty (removeStop (getLegalActions gameState agent)).

(** The expectimax call on a node returns [v] (with enough fuel). *)
Definition expectimaxReturns (gameState : GameState) (agent depth : nat)
           (v : Q) : Prop :=
  exists fuel,
    snd (ExpectimaxAgent.expectimaxValue fuel gameState agent depth) = Ok v.

(** The turn of the next agent, in minimax and in alpha-beta. *)
Definition mmNext fuel (gameState : GameState) agent depth action :=
  if nextIndex gameState agent =? 0
  then MinimaxAgent.maxValue fuel (generateSuccessor gameState agent action)
                             (nextIndex gameState agent) (depth + 1)
  else MinimaxAgent.minValue fuel (generateSuccessor gameState agent action)
                             (nextIndex gameState agent) depth.

Definition abNext fuel (gameState : GameState) agent depth action alpha beta :=
  if nextIndex gameState agent =? 0
  then AlphaBetaAgent.maxValue fuel (generateSuccessor gameState agent action)
                               (nextIndex gameState agent) (depth + 1)
                               alpha beta
  else AlphaBetaAgent.minValue fuel (generateSuccessor gameState agent action)
                               (nextIndex gameState agent) depth alpha beta.

(** An order embedding of the values of [EZ] that lie within [(-M, M)]
    into the integers: the bounds go to [-M] and [M]. *)
Definition key (M : Z) (x : EZ) : Z :=
  match x with NegInf => (- M)%Z | Fin z => z | PosInf => M end.

Definition val (x : EZ) : Z :=
  match x with Fin z => z | _ => 0%Z end.

Definition inRange (M : Z) (x : EZ) : Prop :=
  match x with Fin z => (- M < z < M)%Z | _ => (0 < M)%Z end.

(** What an alpha-beta call with window [(alpha, beta)] may return ([r])
    where minimax returns [v]: the exact value inside the window, a bound
    of it outside. *)
Definition failSoft (r v alpha beta : EZ) : Prop :=
  (EZ_leb r alpha = true -> EZ_leb v r = true) /\
  (EZ_leb beta r = true -> EZ_leb r v = true) /\
  (EZ_ltb alpha r = true -> EZ_ltb r beta = true -> r = v).

(** Fuel that lets a search from [agent] at [depth] reach its leaves when
    the game has [n] agents. *)
Definition enoughFuel (n agent depth fuel : nat) : Prop :=
  (getTreeDepth - depth) * n + (n - agent) <= fuel.

End Vocabulary.

(** ** Vocabulary of graph search *)

Section SearchVocabulary.

Variables State Action : Type.
Variable problem : SearchProblem State Action.

(** [pathTo actions state]: following [actions] from the starting state
    along [successorStates] leads to [state]. *)
Inductive pathTo : list Action -> State -> Prop :=
| pathTo_start : pathTo [] (startingState problem)
| pathTo_step actions state child action cost :
    pathTo actions state ->
    In (child, action, cost) (successorStates problem state) ->
    pathTo (actions ++ [action]) child.

Definition goalReachable : Prop :=
  exists actions state, pathTo actions state /\ isGoal problem state = true.

Definition nodeState (node : Node State Action) : State := fst (fst node).
Definition nodePath (node : Node State Action) : list Action := snd (fst node).

(** The frontier holds the paths of some length [k], oldest first, followed
    by paths of length [k + 1]. *)
Definition twoLevels (frontier : list (Node State Action)) : Prop :=
  exists k older newer,
    frontier = older ++ newer /\
    Forall (fun node => length (nodePath node) = k) older /\
    Forall (fun node => length (nodePath node) = S k) newer.

(** What every iteration of the loop of [breadthFirstSearch] keeps. *)
Record bfsInvariant (frontier : list (Node State Action))
       (reached : list State) : Prop := {
  frontier_paths :
    Forall (fun node => pathTo (nodePath node) (nodeState node)) frontier;
  frontier_levels : twoLevels frontier;
  start_seen :
    In (startingState problem) reached \/
    exists node, In node frontier /\
                 nodeState node = startingState problem /\ nodePath node = [];
  reached_expanded :
    forall r actions child action cost,
      In r reached -> pathTo actions r ->
      In (child, action, cost) (successorStates problem r) ->
      In child reached \/
      exists node, In node frontier /\ nodeState node = child /\
                   length (nodePath node) <= S (length actions);
  reached_not_goal : forall r, In r reached -> isGoal problem r = false;
  reached_paths : forall r, In r reached -> exists actions, pathTo actions r
}.

(** The successors not yet expanded, over a list of states. *)
Definition pending (State_eq_dec : forall x y : State, {x = y} + {x <> y})
           (universe reached : list State) : nat :=
  list_sum (map (fun s => if in_dec State_eq_dec s reached then 0
                          else length (successorStates problem s))
                universe).

End SearchVocabulary.

(** ** A 4x4 grid without walls *)

Definition Position_eq_dec (p q : Position) : {p = q} + {p <> q}.
Proof. decide equality; apply Z.eq_dec. Defined.

Definition gridCells : list Position :=
  list_prod [0; 1; 2; 3]%Z [0; 1; 2; 3]%Z.

Definition onGrid (p : Position) : bool :=
  if in_dec Position_eq_dec p gridCells then true else false.

(** Start (0,0), goal (3,3), the four cardinal moves, each of cost 1. *)
Definition gridProblem : SearchProblem Position Directions := {|
  startingState := (0, 0)%Z;
  isGoal := fun p => if Position_eq_dec p (3, 3)%Z then true else false;
  successorStates := fun p =>
    let '(x, y) := p in
    filter (fun child => onGrid (fst (fst child)))
           [ ((x, y + 1), NORTH, 1); ((x, y - 1), SOUTH, 1);
             ((x + 1, y), EAST, 1); ((x - 1, y), WEST, 1) ]%Z
|}.

(** The same grid with the goal outside. *)
Definition noGoalProblem : SearchProblem Position Directions := {|
  startingState := (0, 0)%Z;
  isGoal := fun p => if Position_eq_dec p (7, 7)%Z then true else false;
  successorStates := successorStates gridProblem
|}.

(** ** Vocabulary and inputs of the further properties *)

Section BranchVocabulary.

Context {GameState : Type}
        `{AbstractGameState GameState} `{MultiAgentSearchAgent GameState}.

(** The value minimax gives to the branch of [action] at a node. *)
Definition minimaxBranch (fuel : nat) (gameState : GameState)
           (agent depth : nat) (action : Directions) (w : EZ) : Prop :=
  exists a, snd (mmNext fuel gameState agent depth action) = Ok (w, a).

End BranchVocabulary.

(** A value that is a number within [[lo, hi]]. *)
Definition boundedBy (lo hi : Z) (v : EZ) : Prop :=
  match v with
  | Fin z => (lo <= z <= hi)%Z
  | _ => False
  end.

(** An unbounded line of integers: start 0, goal 3, one step down or up. *)
Definition lineProblem : SearchProblem Z Directions := {|
  startingState := 0%Z;
  isGoal := fun x => (x =? 3)%Z;
  successorStates := fun x => [ ((x - 1)%Z, WEST, 1%Z); ((x + 1)%Z, EAST, 1%Z) ]
|}.

(** Food one cell away, a capsule four cells away, the ghost far. *)
Definition capsuleState : PacmanGameState :=
  mkPacmanGameState (0, 0)%Z [(1, 0)%Z] [(5, 5)%Z] [(0, 4)%Z] 20%Z.

(** The ghost node of [chanceTree]. *)
Definition ghostNode : GameTree :=
  Node_ 0 [ (NORTH, leaf 1); (SOUTH, leaf 4); (STOP, leaf 100) ].

(** * Properties *)

Lemma Directions_eqb_spec a b : reflect (a = b) (Directions_eqb a b).
Proof. destruct a, b; simpl; constructor; congruence. Qed.

(** ** Unimplemented strategies *)

(** C7: depth-first, uniform-cost and A* search raise [NotImplementedError]
    on every problem (and heuristic) and never return a value. *)
Theorem unimplemented_strategies_raise :
  forall (State Action : Type) (problem : SearchProblem State Action)
         (heuristic : State -> SearchProblem State Action -> Z),
    depthFirstSearch problem = Raise NotImplementedError /\
    uniformCostSearch problem = Raise NotImplementedError /\
    aStarSearch problem heuristic = Raise NotImplementedError /\
    (forall r, depthFirstSearch problem <> Ok r) /\
    (forall r, uniformCostSearch problem <> Ok r) /\
    (forall r, aStarSearch problem heuristic <> Ok r).
Proof.
  intros. unfold depthFirstSearch, uniformCostSearch, aStarSearch.
  repeat split; intros; discriminate.
Qed.

(** ** The evaluators *)

Section EvaluatorFacts.

Local Open Scope Z_scope.

Lemma pymin_fold_spec (r : list Z) (x : Z) :
  let m := fold_left (fun m y => if y <? m then y else m) r x in
  In m (x :: r) /\ m <= x /\ Forall (fun y => m <= y) r.
Proof.
  revert x. induction r as [|y r IH]; intros x; simpl.
  - repeat split; auto; lia.
  - specialize (IH (if y <? x then y else x)). simpl in IH.
    destruct IH as (Hin & Hle & Hall).
    destruct (Z.ltb_spec y x).
    + repeat split.
      * destruct Hin as [<-|Hin]; auto.
      * lia.
      * constructor; auto.
    + repeat split.
      * destruct Hin as [<-|Hin]; auto.
      * lia.
      * constructor; auto. lia.
Qed.

Lemma pymin_spec (l : list Z) :
  l <> [] ->
  exists m, pymin l = Ok m /\ In m l /\ Forall (fun y => m <= y) l.
Proof.
  destruct l as [|x r]; [congruence|intros _].
  destruct (pymin_fold_spec r x) as (Hin & Hle & Hall).
  eexists; split; [reflexivity|]. split; auto.
Qed.

Lemma avoidGhosts_sentinel (ghostDistances : list Z) (eval : Z) :
  Exists (fun d => d < 1) ghostDistances ->
  avoidGhosts ghostDistances eval = sentinel.
Proof.
  unfold avoidGhosts. revert eval.
  induction ghostDistances as [|d l IH]; intros eval Hex; simpl.
  - inversion Hex.
  - destruct (Z.ltb_spec d 1).
    + clear. induction l as [|d' l IH]; simpl; auto.
      destruct (d' <? 1); auto.
    + inversion Hex; subst; [lia|auto].
Qed.

Lemma avoidGhosts_clear (ghostDistances : list Z) (eval : Z) :
  Forall (fun d => 1 <= d) ghostDistances ->
  avoidGhosts ghostDistances eval = eval.
Proof.
  unfold avoidGhosts. revert eval.
  induction ghostDistances as [|d l IH]; intros eval Hall; simpl; auto.
  inversion Hall; subst.
  destruct (Z.ltb_spec d 1); [lia|auto].
Qed.

End EvaluatorFacts.

Section BetterEvaluationFacts.

Local Open Scope Z_scope.

Lemma isEmpty_map (A B : Type) (f : A -> B) (l : list A) :
  isEmpty (map f l) = isEmpty l.
Proof. destruct l; reflexivity. Qed.

(** A ghost exactly one cell away does not trigger the override of
    [betterEvaluationFunction]: the result is the score minus the closest
    food distance, not the score plus the sentinel. *)
Lemma adjacent_ghost_not_penalised :
  getFood adjacentGhostState <> [] /\
  Exists (fun g => manhattan (getPacmanPosition adjacentGhostState) g = 1)
         (getGhostStates adjacentGhostState) /\
  betterEvaluationFunction adjacentGhostState = Ok (-2) /\
  betterEvaluationFunction adjacentGhostState
  <> Ok (getScore adjacentGhostState + sentinel).
Proof.
  repeat split.
  - discriminate.
  - constructor. reflexivity.
  - discriminate.
Qed.

(** C1 (amended): when food remains and a ghost is at Manhattan distance
    less than 1 (on Pacman's own cell), [betterEvaluationFunction] returns
    the score plus the sentinel -999999; this is strictly less than what it
    returns for any state of the same score with no ghost that close and
    every capsule and food item nearer than 999999. *)
Theorem better_evaluation_caught :
  forall s : PacmanGameState,
    getFood s <> [] ->
    Exists (fun g => manhattan (getPacmanPosition s) g < 1) (getGhostStates s) ->
    betterEvaluationFunction s = Ok (getScore s + sentinel) /\
    forall s' : PacmanGameState,
      getScore s' = getScore s ->
      Forall (fun g => 1 <= manhattan (getPacmanPosition s') g)
             (getGhostStates s') ->
      Forall (fun o => manhattan (getPacmanPosition s') o < 999999)
             (getCapsules s' ++ getFood s') ->
      exists v', betterEvaluationFunction s' = Ok v' /\
                 getScore s + sentinel < v'.
Proof.
  intros s Hfood Hghost. split.
  - unfold betterEvaluationFunction.
    destruct (getFood s) as [|f fs] eqn:Ef; [congruence|]. cbn [isEmpty].
    set (distances := if isEmpty _ then _ else _).
    destruct (pymin_spec (l := distances)) as (m & -> & _).
    { subst distances. rewrite isEmpty_map.
      destruct (getCapsules s); simpl; discriminate. }
    cbn [obind]. rewrite avoidGhosts_sentinel; [reflexivity|].
    apply Exists_exists. apply Exists_exists in Hghost.
    destruct Hghost as (g & Hin & Hlt).
    exists (manhattan (getPacmanPosition s) g). split; auto.
    apply in_map. exact Hin.
  - intros s' Hscore Hfar Hnear.
    unfold betterEvaluationFunction.
    destruct (getFood s') as [|f fs] eqn:Ef; cbn [isEmpty].
    + eexists; split; [reflexivity|]. unfold sentinel. lia.
    + set (distances := if isEmpty _ then _ else _).
      assert (Hd : distances <> [] /\
                   Forall (fun d => d < 999999) distances).
      { subst distances. apply Forall_app in Hnear. destruct Hnear as [Hc Hf].
        rewrite isEmpty_map.
        destruct (getCapsules s') as [|c cs] eqn:Ec; cbn [isEmpty].
        - split; [discriminate|].
          apply Forall_forall. intros d Hd.
          apply in_map_iff in Hd. destruct Hd as (o & <- & Ho).
          rewrite Forall_forall in Hf. auto.
        - split; [discriminate|].
          apply Forall_forall. intros d Hd.
          apply in_map_iff in Hd. destruct Hd as (o & <- & Ho).
          rewrite Forall_forall in Hc. auto. }
      destruct Hd as [Hne Hlt].
      destruct (pymin_spec Hne) as (m & -> & Hin & _).
      cbn [obind]. rewrite avoidGhosts_clear.
      * eexists; split; [reflexivity|].
        rewrite Forall_forall in Hlt. specialize (Hlt _ Hin).
        unfold sentinel. lia.
      * apply Forall_forall. intros d Hd.
        apply in_map_iff in Hd. destruct Hd as (g & <- & Hg).
        rewrite Forall_forall in Hfar. auto.
Qed.

Lemma better_evaluation_caught_witness :
  betterEvaluationFunction caughtState = Ok (getScore caughtState + sentinel) /\
  exists v', betterEvaluationFunction safeState = Ok v' /\
             getScore caughtState + sentinel < v'.
Proof.
  assert (Hfood : getFood caughtState <> []) by discriminate.
  assert (Hghost : Exists (fun g => manhattan (getPacmanPosition caughtState) g < 1)
                          (getGhostStates caughtState)).
  { constructor. vm_compute. reflexivity. }
  destruct (better_evaluation_caught caughtState Hfood Hghost) as [Hv Hless].
  split; [exact Hv|].
  apply Hless.
  - reflexivity.
  - repeat constructor; vm_compute; discriminate.
  - repeat constructor.
Defined.

(** C9: when the current state has no food left, the reflex evaluation
    function indexes an empty list and raises [IndexError] instead of
    returning a score, whatever the action and the successor; on the same
    state [betterEvaluationFunction] returns the score. *)
Theorem reflex_evaluation_without_food :
  forall (generatePacmanSuccessor : PacmanGameState -> Directions -> PacmanGameState)
         (currentGameState : PacmanGameState) (action : Directions),
    getFood currentGameState = [] ->
    ReflexAgent.evaluationFunction generatePacmanSuccessor currentGameState action
    = Raise IndexError /\
    (forall v, ReflexAgent.evaluationFunction generatePacmanSuccessor
                 currentGameState action <> Ok v) /\
    betterEvaluationFunction currentGameState = Ok (getScore currentGameState).
Proof.
  intros gen s action Hfood.
  unfold ReflexAgent.evaluationFunction, betterEvaluationFunction.
  rewrite Hfood. cbn. repeat split; intros; discriminate.
Qed.

Lemma reflex_evaluation_without_food_witness :
  getFood noFoodState = [] /\
  ReflexAgent.evaluationFunction movePacman noFoodState EAST = Raise IndexError.
Proof.
  split; [reflexivity|].
  apply (reflex_evaluation_without_food movePacman noFoodState EAST).
  reflexivity.
Defined.

End BetterEvaluationFacts.

(** ** Traced computations *)

Section TracedFacts.

Context {GameState : Type}.

Lemma snd_bind (A B : Type) (m : M GameState A) (f : A -> M GameState B) :
  snd (bind m f) = obind (snd m) (fun a => snd (f a)).
Proof. unfold bind. destruct (snd m); reflexivity. Qed.

Lemma fst_bind (A B : Type) (m : M GameState A) (f : A -> M GameState B) :
  fst (bind m f)
  = fst m ++ match snd m with Ok a => fst (f a) | _ => [] end.
Proof. unfold bind. destruct (snd m); simpl; auto using app_nil_r. Qed.

Lemma expanded_app (t u : list (event GameState)) :
  expanded (t ++ u) = expanded t ++ expanded u.
Proof. unfold expanded. apply flat_map_app. Qed.

Lemma evaluations_app (t u : list (event GameState)) :
  evaluations (t ++ u) = evaluations t + evaluations u.
Proof. unfold evaluations. rewrite filter_app, length_app. reflexivity. Qed.

(** A property of traces that holds of the empty trace and is kept by
    concatenation is kept by [bind]. *)
Lemma bind_trace (P : list (event GameState) -> Prop)
      (A B : Type) (m : M GameState A) (f : A -> M GameState B) :
  P [] ->
  (forall t u, P t -> P u -> P (t ++ u)) ->
  P (fst m) -> (forall a, P (fst (f a))) -> P (fst (bind m f)).
Proof.
  intros Hnil Happ Hm Hf. rewrite fst_bind.
  destruct (snd m); auto.
Qed.

End TracedFacts.

(** ** Removing the no-op action *)

Lemma remove_first_absent (l : list Directions) :
  NoDup l -> ~ In STOP (remove_first STOP l).
Proof.
  induction l as [|y r IH]; simpl; auto.
  intros Hnd. inversion Hnd as [|? ? Hy Hr]; subst.
  destruct (Directions_eqb_spec y STOP) as [->|Hne]; auto.
  simpl. intros [H|H]; [congruence|]. exact (IH Hr H).
Qed.

Lemma removeStop_absent (legalActions : list Directions) :
  NoDup legalActions -> ~ In STOP (removeStop legalActions).
Proof.
  intros Hnd. unfold removeStop.
  destruct (existsb (Directions_eqb STOP) legalActions) eqn:E.
  - apply remove_first_absent; assumption.
  - intros Hin.
    assert (Ht : existsb (Directions_eqb STOP) legalActions = true).
    { apply existsb_exists. exists STOP. split; auto. }
    congruence.
Qed.

Lemma isEmpty_true (A : Type) (l : list A) : isEmpty l = true <-> l = [].
Proof. destruct l; simpl; split; congruence. Qed.

(** ** No legal action at the root *)

Section NoLegalAction.

Context {GameState : Type}
        `{AbstractGameState GameState} `{MultiAgentSearchAgent GameState}.

(** C2, on the code: when agent 0 has no legal action left after the no-op
    is filtered out, [getAction] of the expectimax agent returns [STOP],
    while [getAction] of the minimax and of the alpha-beta agent return
    [None]. *)
Theorem getAction_without_legal_actions :
  forall (gameState : GameState) (fuel : nat),
    removeStop (getLegalActions gameState 0) = [] ->
    snd (ExpectimaxAgent.getAction fuel gameState) = Ok (Some STOP) /\
    snd (MinimaxAgent.getAction (S fuel) gameState) = Ok None /\
    snd (AlphaBetaAgent.getAction (S fuel) gameState) = Ok None.
Proof.
  intros s fuel Hnone.
  unfold ExpectimaxAgent.getAction, MinimaxAgent.getAction,
    AlphaBetaAgent.getAction.
  cbn [MinimaxAgent.maxValue AlphaBetaAgent.maxValue].
  rewrite Hnone. cbn [isEmpty]. rewrite orb_true_r.
  repeat split.
Qed.

End NoLegalAction.

Lemma getAction_without_legal_actions_witness :
  removeStop (@getLegalActions _ (treeGame 2) boxedInTree 0) = [] /\
  snd (@MinimaxAgent.getAction _ (treeGame 2) (treeAgent 2) 1 boxedInTree)
  = Ok None.
Proof.
  split; [reflexivity|].
  apply (@getAction_without_legal_actions _ (treeGame 2) (treeAgent 2)
           boxedInTree 0).
  reflexivity.
Defined.

(** ** Pruning *)

(** C4: on the two-ply, branching-factor-two tree [prunableTree], whose
    second Pacman move is dominated after its first ghost reply, alpha-beta
    returns the value and action of minimax, calls the evaluation function
    strictly fewer times (3 against 4), and never evaluates the pruned
    leaf, which minimax does evaluate. *)
Theorem alphabeta_prunes :
  forall k : nat,
    let fuel := 3 + k in
    let minimax :=
      @MinimaxAgent.maxValue _ (treeGame 2) (treeAgent 1) fuel prunableTree 0 0 in
    let alphabeta :=
      @AlphaBetaAgent.maxValue _ (treeGame 2) (treeAgent 1) fuel prunableTree 0 0
                               NegInf PosInf in
    snd minimax = Ok (Fin 3%Z, Some NORTH) /\
    snd alphabeta = Ok (Fin 3%Z, Some NORTH) /\
    evaluations (fst alphabeta) = 3 /\
    evaluations (fst minimax) = 4 /\
    evaluations (fst alphabeta) < evaluations (fst minimax) /\
    ~ In (Evaluated (leaf 9)) (fst alphabeta) /\
    In (Evaluated (leaf 9)) (fst minimax).
Proof.
  intros k. cbv zeta. change (3 + k) with (S (S (S k))).
  split; [vm_compute; reflexivity|].
  split; [vm_compute; reflexivity|].
  split; [vm_compute; reflexivity|].
  split; [vm_compute; reflexivity|].
  split; [vm_compute; lia|].
  split.
  - vm_compute. intuition discriminate.
  - vm_compute. intuition.
Qed.

(** ** The no-op action is never expanded *)

Section NoStopExpanded.

Context {GameState : Type}
        `{AbstractGameState GameState} `{MultiAgentSearchAgent GameState}.

Local Abbreviation stopFree := (@stopFree GameState).

Lemma stopFree_nil : stopFree [].
Proof. intros []. Qed.

Lemma stopFree_app (t u : list (event GameState)) :
  stopFree t -> stopFree u -> stopFree (t ++ u).
Proof.
  unfold stopFree. rewrite expanded_app, in_app_iff. tauto.
Qed.

Lemma stopFree_bind (A B : Type) (m : M GameState A) (f : A -> M GameState B) :
  stopFree (fst m) -> (forall a, stopFree (fst (f a))) ->
  stopFree (fst (bind m f)).
Proof. apply bind_trace; auto using stopFree_nil, stopFree_app. Qed.

Lemma stopFree_successor gameState agent action :
  action <> STOP -> stopFree (fst (successor gameState agent action)).
Proof. unfold stopFree. simpl. intros Hne [Heq|[]]. congruence. Qed.

Lemma stopFree_nextAgentOf gameState agent :
  stopFree (fst (nextAgentOf gameState agent)).
Proof.
  unfold nextAgentOf. destruct (getNumAgents gameState); apply stopFree_nil.
Qed.

Lemma stopFree_evaluate (A : Type) gameState (f : Z -> M GameState A) :
  (forall v, stopFree (fst (f v))) ->
  stopFree (fst (bind (evaluate gameState) f)).
Proof. intros Hf. apply stopFree_bind; auto. intros []. Qed.

Ltac loop_step IH :=
  apply stopFree_bind;
  [ now auto with datatypes
  | intros; repeat match goal with
                   | |- context [if ?b then _ else _] => destruct b
                   end;
    solve [ apply stopFree_nil | apply IH; auto with datatypes ] ].

Lemma stopFree_minimax_maxLoop child legalActions bestValue bestAction :
  (forall action, In action legalActions -> stopFree (fst (child action))) ->
  stopFree (fst (MinimaxAgent.maxLoop child legalActions bestValue bestAction)).
Proof.
  revert bestValue bestAction.
  induction legalActions as [|action rest IH]; intros bestValue bestAction Hc;
    cbn [MinimaxAgent.maxLoop]; [apply stopFree_nil | loop_step IH].
Qed.

Lemma stopFree_minimax_minLoop child legalActions bestValue bestAction :
  (forall action, In action legalActions -> stopFree (fst (child action))) ->
  stopFree (fst (MinimaxAgent.minLoop child legalActions bestValue bestAction)).
Proof.
  revert bestValue bestAction.
  induction legalActions as [|action rest IH]; intros bestValue bestAction Hc;
    cbn [MinimaxAgent.minLoop]; [apply stopFree_nil | loop_step IH].
Qed.

Lemma stopFree_alphabeta_maxLoop child legalActions bestValue bestAction
      alpha beta :
  (forall action a b, In action legalActions ->
                      stopFree (fst (child action a b))) ->
  stopFree (fst (AlphaBetaAgent.maxLoop child legalActions bestValue bestAction
                                        alpha beta)).
Proof.
  revert bestValue bestAction alpha.
  induction legalActions as [|action rest IH];
    intros bestValue bestAction alpha Hc;
    cbn [AlphaBetaAgent.maxLoop]; [apply stopFree_nil | loop_step IH].
Qed.

Lemma stopFree_alphabeta_minLoop child legalActions bestValue bestAction
      alpha beta :
  (forall action a b, In action legalActions ->
                      stopFree (fst (child action a b))) ->
  stopFree (fst (AlphaBetaAgent.minLoop child legalActions bestValue bestAction
                                        alpha beta)).
Proof.
  revert bestValue bestAction beta.
  induction legalActions as [|action rest IH];
    intros bestValue bestAction beta Hc;
    cbn [AlphaBetaAgent.minLoop]; [apply stopFree_nil | loop_step IH].
Qed.

Lemma stopFree_collect child legalActions values :
  (forall action, In action legalActions -> stopFree (fst (child action))) ->
  stopFree (fst (ExpectimaxAgent.collect child legalActions values)).
Proof.
  revert values.
  induction legalActions as [|action rest IH]; intros values Hc;
    cbn [ExpectimaxAgent.collect]; [apply stopFree_nil | loop_step IH].
Qed.

Lemma stopFree_child (A : Type) gameState agent action
      (k : GameState -> nat -> M GameState A) :
  action <> STOP ->
  (forall s' n, stopFree (fst (k s' n))) ->
  stopFree (fst (bind (successor gameState agent action)
                      (fun s' => bind (nextAgentOf gameState agent)
                                      (fun n => k s' n)))).
Proof.
  intros Hne Hk. apply stopFree_bind; [apply stopFree_successor; auto|].
  intros s'. apply stopFree_bind; [apply stopFree_nextAgentOf|auto].
Qed.

Hypothesis legal_NoDup :
  forall gameState agent, NoDup (getLegalActions gameState agent).

Lemma legal_not_stop gameState agent action :
  In action (removeStop (getLegalActions gameState agent)) -> action <> STOP.
Proof.
  intros Hin ->. exact (removeStop_absent (legal_NoDup gameState agent) Hin).
Qed.

Ltac node_step loop :=
  match goal with
  | |- context [if ?b then _ else _] => destruct b
  end;
  [ apply stopFree_evaluate; intros; apply stopFree_nil
  | apply loop; intros; apply stopFree_child;
    [ eapply legal_not_stop; eassumption
    | intros s' n; apply stopFree_bind;
      [ destruct (n =? 0); auto | intros; apply stopFree_nil ] ] ].

Lemma stopFree_minimax fuel :
  (forall gameState agent depth,
      stopFree (fst (MinimaxAgent.maxValue fuel gameState agent depth))) /\
  (forall gameState agent depth,
      stopFree (fst (MinimaxAgent.minValue fuel gameState agent depth))).
Proof.
  induction fuel as [|fuel [IHmax IHmin]].
  - split; intros; apply stopFree_nil.
  - split; intros gameState agent depth;
      cbn [MinimaxAgent.maxValue MinimaxAgent.minValue].
    + node_step stopFree_minimax_maxLoop.
    + node_step stopFree_minimax_minLoop.
Qed.

Lemma stopFree_alphabeta fuel :
  (forall gameState agent depth alpha beta,
      stopFree (fst (AlphaBetaAgent.maxValue fuel gameState agent depth
                                             alpha beta))) /\
  (forall gameState agent depth alpha beta,
      stopFree (fst (AlphaBetaAgent.minValue fuel gameState agent depth
                                             alpha beta))).
Proof.
  induction fuel as [|fuel [IHmax IHmin]].
  - split; intros; apply stopFree_nil.
  - split; intros gameState agent depth alpha beta;
      cbn [AlphaBetaAgent.maxValue AlphaBetaAgent.minValue].
    + node_step stopFree_alphabeta_maxLoop.
    + node_step stopFree_alphabeta_minLoop.
Qed.

Lemma stopFree_expectimax fuel :
  forall gameState agent depth,
    stopFree (fst (ExpectimaxAgent.expectimaxValue fuel gameState agent depth)).
Proof.
  induction fuel as [|fuel IH]; intros gameState agent depth.
  - apply stopFree_nil.
  - cbn [ExpectimaxAgent.expectimaxValue].
    match goal with
    | |- context [if ?b then _ else _] => destruct b
    end.
    + apply stopFree_evaluate; intros; apply stopFree_nil.
    + apply stopFree_bind.
      * apply stopFree_collect. intros. apply stopFree_child.
        -- eapply legal_not_stop; eassumption.
        -- intros; apply IH.
      * intros values. destruct (agent =? 0); apply stopFree_nil.
Qed.

Lemma stopFree_bestLoop fuel gameState legalActions bestValue bestAction :
  (forall action, In action legalActions -> action <> STOP) ->
  stopFree (fst (ExpectimaxAgent.bestLoop fuel gameState legalActions
                                          bestValue bestAction)).
Proof.
  revert bestValue bestAction.
  induction legalActions as [|action rest IH]; intros bestValue bestAction Hne;
    cbn [ExpectimaxAgent.bestLoop]; [apply stopFree_nil|].
  apply stopFree_bind.
  - apply stopFree_successor. auto with datatypes.
  - intros s'. apply stopFree_bind; [apply stopFree_expectimax|].
    intros v. destruct (ext_ltb _ _ _); apply IH; auto with datatypes.
Qed.


End NoStopExpanded.


(** ** Turn order and fuel *)

Lemma next_turn (T n agent depth fuel : nat) :
  agent < n -> depth < T ->
  (T - depth) * n + (n - agent) <= S fuel ->
  let agent' := (agent + 1) mod n in
  let depth' := if agent' =? 0 then depth + 1 else depth in
  agent' < n /\ depth' <= T /\ (T - depth') * n + (n - agent') <= fuel.
Proof.
  intros Ha Hd Hf. cbv zeta.
  destruct (Nat.eq_dec (agent + 1) n) as [E|E].
  - rewrite E, Nat.Div0.mod_same. simpl.
    repeat split; try lia.
    replace (T - depth) with (S (T - (depth + 1))) in Hf by lia.
    simpl in Hf. lia.
  - rewrite Nat.mod_small by lia.
    destruct (agent + 1 =? 0) eqn:E0; [apply Nat.eqb_eq in E0; lia|].
    repeat split; lia.
Qed.

Lemma Forall2_choice (A B : Type) (R : A -> B -> Prop) (l : list A) :
  (forall a, In a l -> exists b, R a b) -> exists l', Forall2 R l l'.
Proof.
  induction l as [|a l IH]; intros Hex.
  - exists []. constructor.
  - destruct (Hex a) as [b Hb]; [now left|].
    destruct IH as [l' Hl']; [intros; apply Hex; now right|].
    exists (b :: l'). constructor; auto.
Qed.

(** ** Expectimax *)

Section ExpectimaxFacts.

Context {GameState : Type}
        `{AbstractGameState GameState} `{MultiAgentSearchAgent GameState}.

Lemma pymaxQ_fold_spec (r : list Q) (x : Q) :
  let m := fold_left (fun m y => if Q_ltb m y then y else m) r x in
  In m (x :: r) /\ (x <= m)%Q /\ Forall (fun y => (y <= m)%Q) r.
Proof.
  revert x. induction r as [|y r IH]; intros x; simpl.
  - repeat split; auto. apply Qle_refl.
  - specialize (IH (if Q_ltb x y then y else x)). simpl in IH.
    destruct IH as (Hin & Hle & Hall).
    unfold Q_ltb in *. destruct (Qle_bool y x) eqn:E; simpl in *.
    + apply Qle_bool_iff in E. repeat split.
      * destruct Hin as [<-|Hin]; auto.
      * exact Hle.
      * constructor; auto. eapply Qle_trans; eauto.
    + assert (Hlt : (x < y)%Q).
      { apply Qnot_le_lt. intros Hc. apply Qle_bool_iff in Hc. congruence. }
      repeat split.
      * destruct Hin as [<-|Hin]; auto.
      * eapply Qle_trans; [apply Qlt_le_weak; eassumption|exact Hle].
      * constructor; auto.
Qed.

Lemma pymaxQ_spec (values : list Q) (v : Q) :
  pymaxQ values = Ok v ->
  In v values /\ Forall (fun x => (x <= v)%Q) values.
Proof.
  destruct values as [|x r]; simpl; [discriminate|].
  intros [= <-]. destruct (pymaxQ_fold_spec r x) as (Hin & Hle & Hall).
  split; auto.
Qed.

Lemma collect_spec (child : Directions -> M GameState Q) legalActions values0 values :
  snd (ExpectimaxAgent.collect child legalActions values0) = Ok values ->
  exists new, values = values0 ++ new /\
              Forall2 (fun action value => snd (child action) = Ok value)
                      legalActions new.
Proof.
  revert values0. induction legalActions as [|action rest IH]; intros values0.
  - simpl. intros [= <-]. exists []. split; [now rewrite app_nil_r|constructor].
  - cbn [ExpectimaxAgent.collect]. rewrite snd_bind.
    destruct (snd (child action)) as [value| |] eqn:E; simpl; try discriminate.
    intros Hrest. destruct (IH _ Hrest) as (new & -> & Hall).
    exists (value :: new). split; [now rewrite <- app_assoc|].
    constructor; auto.
Qed.

Lemma collect_complete (child : Directions -> M GameState Q) legalActions values0 new :
  Forall2 (fun action value => snd (child action) = Ok value) legalActions new ->
  snd (ExpectimaxAgent.collect child legalActions values0) = Ok (values0 ++ new).
Proof.
  intros Hall. revert values0.
  induction Hall as [|action value rest new Hc Hall IH]; intros values0.
  - simpl. now rewrite app_nil_r.
  - cbn [ExpectimaxAgent.collect]. rewrite snd_bind, Hc. simpl.
    rewrite IH, <- app_assoc. reflexivity.
Qed.

Lemma collect_raise (child : Directions -> M GameState Q) legalActions values0 e :
  snd (ExpectimaxAgent.collect child legalActions values0) = Raise e ->
  exists action, In action legalActions /\ snd (child action) = Raise e.
Proof.
  revert values0. induction legalActions as [|action rest IH]; intros values0.
  - simpl. discriminate.
  - cbn [ExpectimaxAgent.collect]. rewrite snd_bind.
    destruct (snd (child action)) as [value| |] eqn:E; simpl; try discriminate.
    + intros Hrest. destruct (IH _ Hrest) as (a & Hin & Ha).
      exists a. auto with datatypes.
    + intros [= <-]. exists action. auto with datatypes.
Qed.

Lemma collect_trace (child : Directions -> M GameState Q) legalActions values0 values :
  snd (ExpectimaxAgent.collect child legalActions values0) = Ok values ->
  forall action, In action legalActions ->
    incl (fst (child action))
         (fst (ExpectimaxAgent.collect child legalActions values0)).
Proof.
  revert values0. induction legalActions as [|action rest IH]; intros values0.
  - intros _ a [].
  - cbn [ExpectimaxAgent.collect]. rewrite snd_bind, fst_bind.
    destruct (snd (child action)) as [value| |] eqn:E; simpl; try discriminate.
    intros Hrest a [<-|Hin].
    + apply incl_appl, incl_refl.
    + apply incl_appr. eapply IH; eauto.
Qed.

(** The outcome of one branch of [expectimaxValue]. *)
Lemma expectimax_child fuel gameState agent depth action :
  snd (bind (successor gameState agent action)
            (fun successorGameState =>
               bind (nextAgentOf gameState agent)
                    (fun nextAgent =>
                       let nextDepth :=
                         if nextAgent =? 0 then depth + 1 else depth in
                       ExpectimaxAgent.expectimaxValue
                         fuel successorGameState nextAgent nextDepth)))
  = match getNumAgents gameState with
    | O => Raise ZeroModulo
    | S _ => snd (ExpectimaxAgent.expectimaxValue
                    fuel (generateSuccessor gameState agent action)
                    (nextIndex gameState agent)
                    (nextPly gameState agent depth))
    end.
Proof.
  rewrite snd_bind. simpl. rewrite snd_bind.
  unfold nextAgentOf, nextPly, nextIndex.
  destruct (getNumAgents gameState); reflexivity.
Qed.

Lemma expectimax_child_pos fuel gameState agent depth action :
  getNumAgents gameState <> 0 ->
  snd (bind (successor gameState agent action)
            (fun successorGameState =>
               bind (nextAgentOf gameState agent)
                    (fun nextAgent =>
                       let nextDepth :=
                         if nextAgent =? 0 then depth + 1 else depth in
                       ExpectimaxAgent.expectimaxValue
                         fuel successorGameState nextAgent nextDepth)))
  = snd (ExpectimaxAgent.expectimaxValue
           fuel (generateSuccessor gameState agent action)
           (nextIndex gameState agent) (nextPly gameState agent depth)).
Proof.
  intros Hn. rewrite expectimax_child.
  destruct (getNumAgents gameState); [congruence|reflexivity].
Qed.

Local Abbreviation branch fuel gameState agent depth :=
  (fun action =>
     bind (successor gameState agent action)
          (fun successorGameState =>
             bind (nextAgentOf gameState agent)
                  (fun nextAgent =>
                     let nextDepth :=
                       if (nextAgent =? 0)%nat then (depth + 1)%nat else depth%nat in
                     ExpectimaxAgent.expectimaxValue
                       fuel successorGameState nextAgent nextDepth))).

Lemma expectimaxValue_S fuel gameState agent depth :
  snd (ExpectimaxAgent.expectimaxValue (S fuel) gameState agent depth)
  = if isLeaf gameState agent depth
    then Ok (inject_Z (_evaluationFunction gameState))
    else
      obind (snd (ExpectimaxAgent.collect
                    (branch fuel gameState agent depth)
                    (removeStop (getLegalActions gameState agent)) []))
            (fun values =>
               if agent =? 0 then pymaxQ values
               else floatDiv (sumQ values)
                             (length (removeStop
                                        (getLegalActions gameState agent)))).
Proof.
  cbn [ExpectimaxAgent.expectimaxValue]. unfold isLeaf.
  destruct (_ || _); [reflexivity|].
  rewrite snd_bind. destruct (snd (ExpectimaxAgent.collect _ _ _)); simpl; auto.
  destruct (agent =? 0); reflexivity.
Qed.

Lemma expectimax_fuel_mono fuel :
  forall fuel' gameState agent depth v,
    fuel <= fuel' ->
    snd (ExpectimaxAgent.expectimaxValue fuel gameState agent depth) = Ok v ->
    snd (ExpectimaxAgent.expectimaxValue fuel' gameState agent depth) = Ok v.
Proof.
  induction fuel as [|fuel IH]; intros fuel' s agent depth v Hle.
  - simpl. discriminate.
  - destruct fuel' as [|fuel']; [lia|].
    rewrite !expectimaxValue_S.
    destruct (isLeaf s agent depth); auto.
    destruct (snd (ExpectimaxAgent.collect (branch fuel s agent depth) _ _))
      as [values| |] eqn:E; simpl; try discriminate.
    apply collect_spec in E. destruct E as (new & -> & Hall).
    simpl. intros Hv.
    erewrite (collect_complete (branch fuel' s agent depth) []);
      [simpl; exact Hv|].
    eapply Forall2_impl; [|exact Hall].
    intros action value. cbv beta. rewrite !expectimax_child.
    destruct (getNumAgents s); auto.
    apply IH. lia.
Qed.

Lemma expectimaxReturns_unique gameState agent depth v v' :
  expectimaxReturns gameState agent depth v ->
  expectimaxReturns gameState agent depth v' -> v = v'.
Proof.
  intros [f Hf] [f' Hf'].
  apply (expectimax_fuel_mono (fuel':=Nat.max f f')) in Hf; [|lia].
  apply (expectimax_fuel_mono (fuel':=Nat.max f f')) in Hf'; [|lia].
  congruence.
Qed.

(** No call of [expectimaxValue] fails in [max(values)] or in the
    division: both are reached with at least one value. *)
Lemma expectimax_no_arithmetic_fault fuel :
  forall gameState agent depth,
    snd (ExpectimaxAgent.expectimaxValue fuel gameState agent depth)
    <> Raise ZeroFloatDivision /\
    snd (ExpectimaxAgent.expectimaxValue fuel gameState agent depth)
    <> Raise ValueError.
Proof.
  induction fuel as [|fuel IH]; intros s agent depth.
  - simpl. split; discriminate.
  - rewrite expectimaxValue_S. unfold isLeaf.
    destruct (depth =? getTreeDepth); simpl; [split; discriminate|].
    destruct (removeStop (getLegalActions s agent)) as [|a legal] eqn:El;
      simpl isEmpty; cbv iota; [split; discriminate|].
    destruct (snd (ExpectimaxAgent.collect _ _ _)) as [values| |] eqn:E;
      cbn [obind].
    + apply collect_spec in E. destruct E as (new & -> & Hall).
      inversion Hall; subst. simpl app.
      destruct (agent =? 0); simpl; split; discriminate.
    + apply collect_raise in E. destruct E as (action & _ & Hr).
      rewrite expectimax_child in Hr.
      destruct (getNumAgents s).
      * split; congruence.
      * destruct (IH (generateSuccessor s agent action) (nextIndex s agent)
                     (nextPly s agent depth)).
        split; congruence.
    + split; discriminate.
Qed.

Section ConstantAgents.

Variable n : nat.
Hypothesis numAgents_constant : forall gameState, getNumAgents gameState = n.

Lemma expectimax_total fuel :
  forall gameState agent depth,
    agent < n -> depth <= getTreeDepth ->
    enoughFuel n agent depth fuel ->
    exists v,
      snd (ExpectimaxAgent.expectimaxValue fuel gameState agent depth) = Ok v.
Proof.
  unfold enoughFuel.
  induction fuel as [|fuel IH]; intros s agent depth Ha Hd Hf; [nia|].
  rewrite expectimaxValue_S. unfold isLeaf.
  destruct (Nat.eqb_spec depth getTreeDepth) as [Ed|Ed]; cbn [orb]; [eauto|].
  destruct (removeStop (getLegalActions s agent)) as [|a legal] eqn:El;
    cbn [isEmpty]; [eauto|].
  destruct (@Forall2_choice _ _
              (fun action value =>
                 snd (branch fuel s agent depth action) = Ok value)
              (a :: legal)) as [values Hall].
  { intros action _.
    rewrite expectimax_child_pos by (rewrite numAgents_constant; lia).
    destruct (@next_turn getTreeDepth n agent depth fuel) as (Ha' & Hd' & Hf');
      try lia.
    unfold nextPly, nextIndex. rewrite numAgents_constant.
    apply IH; auto. }
  cbv zeta in Hall |- *.
  rewrite (collect_complete _ [] Hall). simpl app. cbn [obind].
  inversion Hall; subst.
  destruct (agent =? 0); simpl; eauto.
Qed.


End ConstantAgents.

(** C10: no call of [expectimaxValue] divides by zero (nor takes the
    maximum of no value): at the division the filtered list of legal
    actions is not empty, and the loop has collected exactly one value
    for each of its actions. *)
Theorem expectimax_division_safe :
  forall fuel gameState agent depth,
    snd (ExpectimaxAgent.expectimaxValue fuel gameState agent depth)
    <> Raise ZeroFloatDivision /\
    (isLeaf gameState agent depth = false ->
     removeStop (getLegalActions gameState agent) <> []) /\
    (isLeaf gameState agent depth = true ->
     snd (ExpectimaxAgent.expectimaxValue (S fuel) gameState agent depth)
     = Ok (inject_Z (_evaluationFunction gameState))) /\
    forall (child : Directions -> M GameState Q) (values : list Q),
      snd (ExpectimaxAgent.collect
             child (removeStop (getLegalActions gameState agent)) [])
      = Ok values ->
      length values = length (removeStop (getLegalActions gameState agent)).
Proof.
  intros fuel s agent depth. split; [|split; [|split]].
  - apply expectimax_no_arithmetic_fault.
  - unfold isLeaf. intros Hleaf Hnil. rewrite Hnil in Hleaf.
    simpl in Hleaf. rewrite orb_true_r in Hleaf. discriminate.
  - intros Hleaf. rewrite expectimaxValue_S, Hleaf. reflexivity.
  - intros child values Hc. apply collect_spec in Hc.
    destruct Hc as (new & -> & Hall). apply Forall2_length in Hall.
    simpl. auto.
Qed.

End ExpectimaxFacts.


Lemma expectimax_division_safe_witness :
  snd (@ExpectimaxAgent.expectimaxValue _ (treeGame 2) (treeAgent 1)
                                        3 chanceTree 0 0)
  <> Raise ZeroFloatDivision /\
  removeStop (@getLegalActions _ (treeGame 2) chanceTree 0) <> [].
Proof.
  destruct (@expectimax_division_safe _ (treeGame 2) (treeAgent 1)
              3 chanceTree 0 0) as (Hsafe & Hnonempty & _ & _).
  split; [exact Hsafe|].
  apply Hnonempty. reflexivity.
Defined.

(** ** Alpha-beta against minimax *)

(** The order of [EZ] read on integer keys, so that [lia] decides it. *)

Section Keys.

Variables (M : Z) (x y : EZ).
Hypotheses (Hx : inRange M x) (Hy : inRange M y).

Lemma EZ_ltb_true : EZ_ltb x y = true <-> (key M x < key M y)%Z.
Proof.
  destruct x, y; simpl in *; rewrite ?Z.ltb_lt; split; intros;
    try discriminate; try reflexivity; try lia.
Qed.

Lemma EZ_ltb_false : EZ_ltb x y = false <-> (key M y <= key M x)%Z.
Proof.
  destruct (EZ_ltb x y) eqn:E.
  - apply EZ_ltb_true in E. split; intros; [discriminate|lia].
  - assert (~ (key M x < key M y)%Z) by (rewrite <- EZ_ltb_true; congruence).
    split; intros; [lia|reflexivity].
Qed.

Lemma EZ_leb_true : EZ_leb y x = true <-> (key M y <= key M x)%Z.
Proof. unfold EZ_leb. rewrite negb_true_iff. apply EZ_ltb_false. Qed.

Lemma EZ_leb_false : EZ_leb y x = false <-> (key M x < key M y)%Z.
Proof. unfold EZ_leb. rewrite negb_false_iff. apply EZ_ltb_true. Qed.

Lemma EZ_eq : x = y <-> key M x = key M y.
Proof.
  split; [intros ->; auto|].
  destruct x, y; simpl in *; intros; try congruence; try lia.
Qed.

End Keys.

Lemma bool_tt : true = true <-> (0 = 0)%Z.
Proof. split; auto. Qed.

Lemma bool_ff : false = false <-> (0 = 0)%Z.
Proof. split; auto. Qed.

Lemma bool_tf : true = false <-> (0 = 1)%Z.
Proof. split; intros; [discriminate | lia]. Qed.

Lemma bool_ft : false = true <-> (0 = 1)%Z.
Proof. split; intros; [discriminate | lia]. Qed.

Ltac ez_ifs :=
  repeat match goal with
         | |- context [if EZ_ltb ?a ?b then _ else _] =>
             let E := fresh "E" in destruct (EZ_ltb a b) eqn:E
         | H : context [if EZ_ltb ?a ?b then _ else _] |- _ =>
             let E := fresh "E" in destruct (EZ_ltb a b) eqn:E
         end.

Ltac ez_bound :=
  let rec go acc :=
    match goal with
    | x : EZ |- _ =>
        lazymatch acc with
        | context [val x] => fail
        | _ => go (acc + Z.abs (val x))%Z
        end
    | _ => acc
    end in
  go 1%Z.

Ltac ez_tr m :=
  repeat match goal with
         | H : context [true = true] |- _ => rewrite bool_tt in H
         | H : context [false = false] |- _ => rewrite bool_ff in H
         | H : context [true = false] |- _ => rewrite bool_tf in H
         | H : context [false = true] |- _ => rewrite bool_ft in H
         | |- context [true = true] => rewrite bool_tt
         | |- context [false = false] => rewrite bool_ff
         | |- context [true = false] => rewrite bool_tf
         | |- context [false = true] => rewrite bool_ft
         | Hx : inRange m ?x, H : context [?x = ?x] |- _ =>
             rewrite (@EZ_eq m x x Hx Hx) in H
         | Hx : inRange m ?x |- context [?x = ?x] =>
             rewrite (@EZ_eq m x x Hx Hx)
         | Hx : inRange m ?x, H : context [EZ_leb ?x ?x = true] |- _ =>
             rewrite (@EZ_leb_true m x x Hx Hx) in H
         | Hx : inRange m ?x |- context [EZ_leb ?x ?x = true] =>
             rewrite (@EZ_leb_true m x x Hx Hx)
         | Hx : inRange m ?x, Hy : inRange m ?y,
           H : context [EZ_ltb ?x ?y = true] |- _ =>
             rewrite (@EZ_ltb_true m x y Hx Hy) in H
         | Hx : inRange m ?x, Hy : inRange m ?y,
           H : context [EZ_ltb ?x ?y = false] |- _ =>
             rewrite (@EZ_ltb_false m x y Hx Hy) in H
         | Hx : inRange m ?x, Hy : inRange m ?y,
           H : context [EZ_leb ?y ?x = true] |- _ =>
             rewrite (@EZ_leb_true m x y Hx Hy) in H
         | Hx : inRange m ?x, Hy : inRange m ?y,
           H : context [EZ_leb ?y ?x = false] |- _ =>
             rewrite (@EZ_leb_false m x y Hx Hy) in H
         | Hx : inRange m ?x, Hy : inRange m ?y, H : context [?x = ?y] |- _ =>
             rewrite (@EZ_eq m x y Hx Hy) in H
         | Hx : inRange m ?x, Hy : inRange m ?y
           |- context [EZ_ltb ?x ?y = true] =>
             rewrite (@EZ_ltb_true m x y Hx Hy)
         | Hx : inRange m ?x, Hy : inRange m ?y
           |- context [EZ_ltb ?x ?y = false] =>
             rewrite (@EZ_ltb_false m x y Hx Hy)
         | Hx : inRange m ?x, Hy : inRange m ?y
           |- context [EZ_leb ?y ?x = true] =>
             rewrite (@EZ_leb_true m x y Hx Hy)
         | Hx : inRange m ?x, Hy : inRange m ?y
           |- context [EZ_leb ?y ?x = false] =>
             rewrite (@EZ_leb_false m x y Hx Hy)
         | Hx : inRange m ?x, Hy : inRange m ?y |- context [?x = ?y] =>
             rewrite (@EZ_eq m x y Hx Hy)
         end.

(** Decides a statement on the order of [EZ] whose values are variables. *)
Ltac ez :=
  unfold failSoft, EZ_max, EZ_min in *; ez_ifs;
  let M := ez_bound in
  let m := fresh "M" in
  pose (m := M);
  repeat match goal with
         | x : EZ |- _ =>
             lazymatch goal with
             | _ : inRange m x |- _ => fail
             | _ => assert (inRange m x)
                 by (subst m; destruct x; cbn [inRange val]; lia)
             end
         end;
  clearbody m;
  ez_tr m;
  lia.

(** The same by cases on the values, for statements that mention a bound. *)
Ltac ez_destruct :=
  unfold failSoft, EZ_max, EZ_min, EZ_leb, EZ_ltb in *;
  repeat match goal with
         | x : EZ |- _ => destruct x
         end;
  cbn [ext_ltb negb] in *;
  repeat match goal with
         | H : context [Z.ltb ?a ?b] |- _ => destruct (Z.ltb_spec a b)
         | |- context [Z.ltb ?a ?b] => destruct (Z.ltb_spec a b)
         end;
  cbn [negb] in *;
  intuition (try discriminate; try congruence; try lia;
             try (f_equal; lia);
             try (exfalso;
                  repeat match goal with
                         | H : Fin _ = Fin _ |- _ => injection H as H
                         end; lia)).

Section OrderSteps.

Lemma failSoft_exact (r alpha beta : EZ) : failSoft r r alpha beta.
Proof. ez. Qed.

(** The loop of [maxValue]: [b] is the best value of minimax so far, [b']
    that of alpha-beta, [alpha0] the bound the node was called with and
    [alpha] its current value. *)
Lemma max_loop_end (b b' alpha0 alpha beta : EZ) :
  EZ_leb b b' = true ->
  (EZ_ltb alpha0 b' = true -> b = b') ->
  EZ_leb alpha0 alpha = true ->
  EZ_leb b' alpha = true ->
  (alpha = alpha0 \/ alpha = b') ->
  EZ_ltb alpha beta = true ->
  failSoft b' b alpha0 beta.
Proof. intros. ez. Qed.

Lemma max_loop_cutoff (alpha0 alpha beta vi ri v : EZ) :
  EZ_leb beta ri = true ->
  failSoft ri vi alpha beta ->
  EZ_leb vi v = true ->
  EZ_leb alpha0 alpha = true ->
  EZ_ltb alpha beta = true ->
  failSoft ri v alpha0 beta.
Proof. intros. ez. Qed.

Lemma max_loop_step (b b' alpha0 alpha beta vi ri : EZ) :
  EZ_leb b b' = true ->
  (EZ_ltb alpha0 b' = true -> b = b') ->
  EZ_leb alpha0 alpha = true ->
  EZ_leb b' alpha = true ->
  (alpha = alpha0 \/ alpha = b') ->
  EZ_ltb alpha beta = true ->
  failSoft ri vi alpha beta ->
  EZ_leb beta ri = false ->
  let bn := if EZ_ltb b vi then vi else b in
  let bn' := if EZ_ltb b' ri then ri else b' in
  let an := if EZ_ltb b' ri then EZ_max alpha ri else alpha in
  EZ_leb bn bn' = true /\
  (EZ_ltb alpha0 bn' = true -> bn = bn') /\
  EZ_leb alpha0 an = true /\
  EZ_leb bn' an = true /\
  (an = alpha0 \/ an = bn') /\
  EZ_ltb an beta = true.
Proof. intros. subst bn bn' an. ez. Qed.

(** The loop of [minValue], symmetrically. *)
Lemma min_loop_end (b b' alpha beta0 beta : EZ) :
  EZ_leb b' b = true ->
  (EZ_ltb b' beta0 = true -> b = b') ->
  EZ_leb beta beta0 = true ->
  EZ_leb beta b' = true ->
  (beta = beta0 \/ beta = b') ->
  EZ_ltb alpha beta = true ->
  failSoft b' b alpha beta0.
Proof. intros. ez. Qed.

Lemma min_loop_cutoff (alpha beta0 beta vi ri v : EZ) :
  EZ_leb ri alpha = true ->
  failSoft ri vi alpha beta ->
  EZ_leb v vi = true ->
  EZ_leb beta beta0 = true ->
  EZ_ltb alpha beta = true ->
  failSoft ri v alpha beta0.
Proof. intros. ez. Qed.

Lemma min_loop_step (b b' alpha beta0 beta vi ri : EZ) :
  EZ_leb b' b = true ->
  (EZ_ltb b' beta0 = true -> b = b') ->
  EZ_leb beta beta0 = true ->
  EZ_leb beta b' = true ->
  (beta = beta0 \/ beta = b') ->
  EZ_ltb alpha beta = true ->
  failSoft ri vi alpha beta ->
  EZ_leb ri alpha = false ->
  let bn := if EZ_ltb vi b then vi else b in
  let bn' := if EZ_ltb ri b' then ri else b' in
  let bt := if EZ_ltb ri b' then EZ_min beta ri else beta in
  EZ_leb bn' bn = true /\
  (EZ_ltb bn' beta0 = true -> bn = bn') /\
  EZ_leb bt beta0 = true /\
  EZ_leb bt bn' = true /\
  (bt = beta0 \/ bt = bn') /\
  EZ_ltb alpha bt = true.
Proof. intros. subst bn bn' bt. ez. Qed.

Lemma EZ_leb_refl (b : EZ) : EZ_leb b b = true.
Proof. ez. Qed.

Lemma EZ_ltb_leb_trans (b vi v : EZ) :
  EZ_ltb b vi = true -> EZ_leb vi v = true -> EZ_leb b v = true.
Proof. intros. ez. Qed.

Lemma EZ_leb_ltb_trans (b vi v : EZ) :
  EZ_ltb vi b = true -> EZ_leb v vi = true -> EZ_leb v b = true.
Proof. intros. ez. Qed.

Lemma EZ_max_of_leb (b vi v : EZ) :
  EZ_leb (if EZ_ltb b vi then vi else b) v = true -> EZ_leb vi v = true.
Proof. intros. ez. Qed.

Lemma EZ_min_of_leb (b vi v : EZ) :
  EZ_leb v (if EZ_ltb vi b then vi else b) = true -> EZ_leb v vi = true.
Proof. intros. ez. Qed.

(** At the root the window is [(b, inf)] with [b] the best value so far. *)
Lemma root_step (b vi ri : EZ) :
  EZ_ltb b PosInf = true ->
  failSoft ri vi b PosInf ->
  (EZ_leb PosInf ri = true -> ri = PosInf /\ vi = PosInf) /\
  (EZ_leb PosInf ri = false ->
   EZ_ltb b vi = EZ_ltb b ri /\
   (EZ_ltb b ri = true ->
    vi = ri /\ EZ_max b ri = ri /\ EZ_ltb ri PosInf = true)).
Proof. intros. ez_destruct. Qed.

End OrderSteps.

Section AlphaBetaFacts.

Context {GameState : Type}
        `{AbstractGameState GameState} `{MultiAgentSearchAgent GameState}.

Local Abbreviation mmBranch fuel gameState agent depth :=
  (fun action =>
     bind (successor gameState agent action)
          (fun successorGameState =>
             bind (nextAgentOf gameState agent)
                  (fun nextAgent =>
                     bind (if (nextAgent =? 0)%nat
                           then MinimaxAgent.maxValue
                                  fuel successorGameState nextAgent
                                  (depth + 1)%nat
                           else MinimaxAgent.minValue
                                  fuel successorGameState nextAgent
                                  depth%nat)
                          (fun r => ret (fst r))))).

Local Abbreviation abBranch fuel gameState agent depth :=
  (fun action alpha beta =>
     bind (successor gameState agent action)
          (fun successorGameState =>
             bind (nextAgentOf gameState agent)
                  (fun nextAgent =>
                     bind (if (nextAgent =? 0)%nat
                           then AlphaBetaAgent.maxValue
                                  fuel successorGameState nextAgent
                                  (depth + 1)%nat alpha beta
                           else AlphaBetaAgent.minValue
                                  fuel successorGameState nextAgent
                                  depth%nat alpha beta)
                          (fun r => ret (fst r))))).

Lemma mmBranch_outcome fuel gameState agent depth action :
  snd (mmBranch fuel gameState agent depth action)
  = match getNumAgents gameState with
    | O => Raise ZeroModulo
    | S _ => obind (snd (mmNext fuel gameState agent depth action))
                   (fun r => Ok (fst r))
    end.
Proof.
  cbv beta. rewrite snd_bind. cbn [successor snd obind]. rewrite snd_bind.
  unfold nextAgentOf, mmNext, nextIndex.
  destruct (getNumAgents gameState); [reflexivity|].
  cbn [ret snd obind]. rewrite snd_bind. reflexivity.
Qed.

Lemma abBranch_outcome fuel gameState agent depth action alpha beta :
  snd (abBranch fuel gameState agent depth action alpha beta)
  = match getNumAgents gameState with
    | O => Raise ZeroModulo
    | S _ => obind (snd (abNext fuel gameState agent depth action alpha beta))
                   (fun r => Ok (fst r))
    end.
Proof.
  cbv beta. rewrite snd_bind. cbn [successor snd obind]. rewrite snd_bind.
  unfold nextAgentOf, abNext, nextIndex.
  destruct (getNumAgents gameState); [reflexivity|].
  cbn [ret snd obind]. rewrite snd_bind. reflexivity.
Qed.

Lemma minimax_maxValue_S fuel gameState agent depth :
  snd (MinimaxAgent.maxValue (S fuel) gameState agent depth)
  = if isLeaf gameState agent depth
    then Ok (Fin (_evaluationFunction gameState), None)
    else snd (MinimaxAgent.maxLoop
                (mmBranch fuel gameState agent depth)
                (removeStop (getLegalActions gameState agent)) NegInf None).
Proof.
  cbn [MinimaxAgent.maxValue]. unfold isLeaf.
  destruct (_ || _); reflexivity.
Qed.

Lemma minimax_minValue_S fuel gameState agent depth :
  snd (MinimaxAgent.minValue (S fuel) gameState agent depth)
  = if isLeaf gameState agent depth
    then Ok (Fin (_evaluationFunction gameState), None)
    else snd (MinimaxAgent.minLoop
                (mmBranch fuel gameState agent depth)
                (removeStop (getLegalActions gameState agent)) PosInf None).
Proof.
  cbn [MinimaxAgent.minValue]. unfold isLeaf.
  destruct (_ || _); reflexivity.
Qed.

Lemma alphabeta_maxValue_S fuel gameState agent depth alpha beta :
  snd (AlphaBetaAgent.maxValue (S fuel) gameState agent depth alpha beta)
  = if isLeaf gameState agent depth
    then Ok (Fin (_evaluationFunction gameState), None)
    else snd (AlphaBetaAgent.maxLoop
                (abBranch fuel gameState agent depth)
                (removeStop (getLegalActions gameState agent)) NegInf None
                alpha beta).
Proof.
  cbn [AlphaBetaAgent.maxValue]. unfold isLeaf.
  destruct (_ || _); reflexivity.
Qed.

Lemma alphabeta_minValue_S fuel gameState agent depth alpha beta :
  snd (AlphaBetaAgent.minValue (S fuel) gameState agent depth alpha beta)
  = if isLeaf gameState agent depth
    then Ok (Fin (_evaluationFunction gameState), None)
    else snd (AlphaBetaAgent.minLoop
                (abBranch fuel gameState agent depth)
                (removeStop (getLegalActions gameState agent)) PosInf None
                alpha beta).
Proof.
  cbn [AlphaBetaAgent.minValue]. unfold isLeaf.
  destruct (_ || _); reflexivity.
Qed.

Section Loops.

Variable child_mm : Directions -> M GameState EZ.
Variable child_ab : Directions -> EZ -> EZ -> M GameState EZ.

Lemma mm_maxLoop_cons action rest b act :
  snd (MinimaxAgent.maxLoop child_mm (action :: rest) b act)
  = obind (snd (child_mm action))
          (fun value =>
             snd (MinimaxAgent.maxLoop
                    child_mm rest
                    (if EZ_ltb b value then value else b)
                    (if EZ_ltb b value then Some action else act))).
Proof.
  cbn [MinimaxAgent.maxLoop]. rewrite snd_bind.
  destruct (snd (child_mm action)) as [value| |]; cbn [obind]; auto.
  destruct (EZ_ltb b value); reflexivity.
Qed.

Lemma mm_minLoop_cons action rest b act :
  snd (MinimaxAgent.minLoop child_mm (action :: rest) b act)
  = obind (snd (child_mm action))
          (fun value =>
             snd (MinimaxAgent.minLoop
                    child_mm rest
                    (if EZ_ltb value b then value else b)
                    (if EZ_ltb value b then Some action else act))).
Proof.
  cbn [MinimaxAgent.minLoop]. rewrite snd_bind.
  destruct (snd (child_mm action)) as [value| |]; cbn [obind]; auto.
  destruct (EZ_ltb value b); reflexivity.
Qed.

Lemma ab_maxLoop_cons action rest b act alpha beta :
  snd (AlphaBetaAgent.maxLoop child_ab (action :: rest) b act alpha beta)
  = obind (snd (child_ab action alpha beta))
          (fun value =>
             if EZ_leb beta value then Ok (value, Some action)
             else snd (AlphaBetaAgent.maxLoop
                         child_ab rest
                         (if EZ_ltb b value then value else b)
                         (if EZ_ltb b value then Some action else act)
                         (if EZ_ltb b value then EZ_max alpha value else alpha)
                         beta)).
Proof.
  cbn [AlphaBetaAgent.maxLoop]. rewrite snd_bind.
  destruct (snd (child_ab action alpha beta)) as [value| |];
    cbn [obind]; auto.
  destruct (EZ_leb beta value); reflexivity.
Qed.

Lemma ab_minLoop_cons action rest b act alpha beta :
  snd (AlphaBetaAgent.minLoop child_ab (action :: rest) b act alpha beta)
  = obind (snd (child_ab action alpha beta))
          (fun value =>
             if EZ_leb value alpha then Ok (value, Some action)
             else snd (AlphaBetaAgent.minLoop
                         child_ab rest
                         (if EZ_ltb value b then value else b)
                         (if EZ_ltb value b then Some action else act)
                         alpha
                         (if EZ_ltb value b then EZ_min beta value else beta))).
Proof.
  cbn [AlphaBetaAgent.minLoop]. rewrite snd_bind.
  destruct (snd (child_ab action alpha beta)) as [value| |];
    cbn [obind]; auto.
  destruct (EZ_leb value alpha); reflexivity.
Qed.

Lemma mm_maxLoop_ge rest : forall b act v a,
  snd (MinimaxAgent.maxLoop child_mm rest b act) = Ok (v, a) ->
  EZ_leb b v = true.
Proof.
  induction rest as [|action rest IH]; intros b act v a.
  - simpl. intros [= <- <-]. apply EZ_leb_refl.
  - rewrite mm_maxLoop_cons.
    destruct (snd (child_mm action)) as [vi| |]; cbn [obind]; try discriminate.
    intros Hr. apply IH in Hr.
    destruct (EZ_ltb b vi) eqn:E; [|exact Hr].
    eapply EZ_ltb_leb_trans; eauto.
Qed.

Lemma mm_minLoop_le rest : forall b act v a,
  snd (MinimaxAgent.minLoop child_mm rest b act) = Ok (v, a) ->
  EZ_leb v b = true.
Proof.
  induction rest as [|action rest IH]; intros b act v a.
  - simpl. intros [= <- <-]. apply EZ_leb_refl.
  - rewrite mm_minLoop_cons.
    destruct (snd (child_mm action)) as [vi| |]; cbn [obind]; try discriminate.
    intros Hr. apply IH in Hr.
    destruct (EZ_ltb vi b) eqn:E; [|exact Hr].
    eapply EZ_leb_ltb_trans; eauto.
Qed.

Lemma mm_maxLoop_top rest : forall act v a,
  snd (MinimaxAgent.maxLoop child_mm rest PosInf act) = Ok (v, a) ->
  v = PosInf /\ a = act.
Proof.
  induction rest as [|action rest IH]; intros act v a.
  - simpl. intros [= <- <-]. auto.
  - rewrite mm_maxLoop_cons.
    destruct (snd (child_mm action)) as [vi| |]; cbn [obind]; try discriminate.
    replace (EZ_ltb PosInf vi) with false by (destruct vi; reflexivity).
    apply IH.
Qed.

Lemma mm_maxLoop_total rest : forall b act,
  (forall action, In action rest -> exists v, snd (child_mm action) = Ok v) ->
  exists v a, snd (MinimaxAgent.maxLoop child_mm rest b act) = Ok (v, a).
Proof.
  induction rest as [|action rest IH]; intros b act Hc.
  - simpl. eauto.
  - rewrite mm_maxLoop_cons.
    destruct (Hc action) as [vi ->]; [now left|]. cbn [obind].
    apply IH. intros; apply Hc; now right.
Qed.

Lemma mm_minLoop_total rest : forall b act,
  (forall action, In action rest -> exists v, snd (child_mm action) = Ok v) ->
  exists v a, snd (MinimaxAgent.minLoop child_mm rest b act) = Ok (v, a).
Proof.
  induction rest as [|action rest IH]; intros b act Hc.
  - simpl. eauto.
  - rewrite mm_minLoop_cons.
    destruct (Hc action) as [vi ->]; [now left|]. cbn [obind].
    apply IH. intros; apply Hc; now right.
Qed.

Hypothesis child_rel :
  forall action v alpha beta,
    EZ_ltb alpha beta = true ->
    snd (child_mm action) = Ok v ->
    exists r, snd (child_ab action alpha beta) = Ok r /\
              failSoft r v alpha beta.

Lemma maxLoop_failSoft actions :
  forall b act b' act' alpha0 alpha beta v a,
    snd (MinimaxAgent.maxLoop child_mm actions b act) = Ok (v, a) ->
    EZ_leb b b' = true ->
    (EZ_ltb alpha0 b' = true -> b = b') ->
    EZ_leb alpha0 alpha = true ->
    EZ_leb b' alpha = true ->
    (alpha = alpha0 \/ alpha = b') ->
    EZ_ltb alpha beta = true ->
    exists r a',
      snd (AlphaBetaAgent.maxLoop child_ab actions b' act' alpha beta)
      = Ok (r, a') /\
      failSoft r v alpha0 beta.
Proof.
  induction actions as [|action rest IH];
    intros b act b' act' alpha0 alpha beta v a Hmm H1 H2 H3 H4 H5 H6.
  - simpl in Hmm. injection Hmm as <- <-.
    exists b', act'. split; [reflexivity|].
    eapply max_loop_end; eauto.
  - rewrite mm_maxLoop_cons in Hmm.
    destruct (snd (child_mm action)) as [vi| |] eqn:Ec;
      cbn [obind] in Hmm; try discriminate.
    destruct (child_rel action alpha beta H6 Ec) as (ri & Hri & Hfs).
    rewrite ab_maxLoop_cons, Hri. cbn [obind].
    destruct (EZ_leb beta ri) eqn:Ecut.
    + exists ri, (Some action). split; [reflexivity|].
      apply mm_maxLoop_ge, EZ_max_of_leb in Hmm.
      eapply max_loop_cutoff; eauto.
    + destruct (@max_loop_step b b' alpha0 alpha beta vi ri
                              H1 H2 H3 H4 H5 H6 Hfs Ecut)
        as (J1 & J2 & J3 & J4 & J5 & J6).
      eapply IH; eauto.
Qed.

Lemma minLoop_failSoft actions :
  forall b act b' act' alpha beta0 beta v a,
    snd (MinimaxAgent.minLoop child_mm actions b act) = Ok (v, a) ->
    EZ_leb b' b = true ->
    (EZ_ltb b' beta0 = true -> b = b') ->
    EZ_leb beta beta0 = true ->
    EZ_leb beta b' = true ->
    (beta = beta0 \/ beta = b') ->
    EZ_ltb alpha beta = true ->
    exists r a',
      snd (AlphaBetaAgent.minLoop child_ab actions b' act' alpha beta)
      = Ok (r, a') /\
      failSoft r v alpha beta0.
Proof.
  induction actions as [|action rest IH];
    intros b act b' act' alpha beta0 beta v a Hmm H1 H2 H3 H4 H5 H6.
  - simpl in Hmm. injection Hmm as <- <-.
    exists b', act'. split; [reflexivity|].
    eapply min_loop_end; eauto.
  - rewrite mm_minLoop_cons in Hmm.
    destruct (snd (child_mm action)) as [vi| |] eqn:Ec;
      cbn [obind] in Hmm; try discriminate.
    destruct (child_rel action alpha beta H6 Ec) as (ri & Hri & Hfs).
    rewrite ab_minLoop_cons, Hri. cbn [obind].
    destruct (EZ_leb ri alpha) eqn:Ecut.
    + exists ri, (Some action). split; [reflexivity|].
      apply mm_minLoop_le, EZ_min_of_leb in Hmm.
      eapply min_loop_cutoff; eauto.
    + destruct (@min_loop_step b b' alpha beta0 beta vi ri
                              H1 H2 H3 H4 H5 H6 Hfs Ecut)
        as (J1 & J2 & J3 & J4 & J5 & J6).
      eapply IH; eauto.
Qed.

(** At the root, where the window is [(-inf, inf)], the two loops keep
    the same best value and the same best action. *)
Lemma maxLoop_root actions :
  forall b act v a,
    EZ_ltb b PosInf = true ->
    snd (MinimaxAgent.maxLoop child_mm actions b act) = Ok (v, a) ->
    snd (AlphaBetaAgent.maxLoop child_ab actions b act b PosInf) = Ok (v, a).
Proof.
  induction actions as [|action rest IH]; intros b act v a Hb Hmm.
  - exact Hmm.
  - rewrite mm_maxLoop_cons in Hmm.
    destruct (snd (child_mm action)) as [vi| |] eqn:Ec;
      cbn [obind] in Hmm; try discriminate.
    destruct (child_rel action b PosInf Hb Ec) as (ri & Hri & Hfs).
    rewrite ab_maxLoop_cons, Hri. cbn [obind].
    destruct (@root_step b vi ri Hb Hfs) as [Hcut Hno].
    destruct (EZ_leb PosInf ri) eqn:Ecut.
    + destruct (Hcut eq_refl) as [-> ->].
      rewrite Hb in Hmm. apply mm_maxLoop_top in Hmm.
      destruct Hmm as [-> ->]. reflexivity.
    + destruct (Hno eq_refl) as [Heq Himp]. rewrite Heq in Hmm.
      destruct (EZ_ltb b ri) eqn:Eimp.
      * destruct (Himp eq_refl) as (-> & Hmax & Hlt). rewrite Hmax.
        apply IH; auto.
      * apply IH; auto.
Qed.

End Loops.

Lemma branch_failSoft fuel gameState agent depth :
  (forall s a d alpha beta v act,
      EZ_ltb alpha beta = true ->
      snd (MinimaxAgent.maxValue fuel s a d) = Ok (v, act) ->
      exists r act',
        snd (AlphaBetaAgent.maxValue fuel s a d alpha beta) = Ok (r, act') /\
        failSoft r v alpha beta) ->
  (forall s a d alpha beta v act,
      EZ_ltb alpha beta = true ->
      snd (MinimaxAgent.minValue fuel s a d) = Ok (v, act) ->
      exists r act',
        snd (AlphaBetaAgent.minValue fuel s a d alpha beta) = Ok (r, act') /\
        failSoft r v alpha beta) ->
  forall action v alpha beta,
    EZ_ltb alpha beta = true ->
    snd (mmBranch fuel gameState agent depth action) = Ok v ->
    exists r,
      snd (abBranch fuel gameState agent depth action alpha beta) = Ok r /\
      failSoft r v alpha beta.
Proof.
  intros IHmax IHmin action v alpha beta Hlt Hc.
  pose proof (mmBranch_outcome fuel gameState agent depth action) as Emm.
  pose proof (abBranch_outcome fuel gameState agent depth action alpha beta)
    as Eab.
  cbv beta in Hc, Emm, Eab |- *. rewrite Emm in Hc. rewrite Eab.
  clear Emm Eab.
  destruct (getNumAgents gameState); [discriminate|].
  unfold mmNext, abNext in *.
  destruct (nextIndex gameState agent =? 0).
  - destruct (snd (MinimaxAgent.maxValue _ _ _ _)) as [[v' a']| |] eqn:E;
      cbn [obind fst] in Hc; try discriminate.
    injection Hc as <-.
    destruct (IHmax _ _ _ alpha beta _ _ Hlt E) as (r & a'' & -> & Hfs).
    exists r. split; [reflexivity|exact Hfs].
  - destruct (snd (MinimaxAgent.minValue _ _ _ _)) as [[v' a']| |] eqn:E;
      cbn [obind fst] in Hc; try discriminate.
    injection Hc as <-.
    destruct (IHmin _ _ _ alpha beta _ _ Hlt E) as (r & a'' & -> & Hfs).
    exists r. split; [reflexivity|exact Hfs].
Qed.

(** Whatever the window, alpha-beta returns with the fuel minimax needs,
    and its value is exact inside the window and a bound outside. *)
Lemma alphabeta_failSoft fuel :
  (forall s a d alpha beta v act,
      EZ_ltb alpha beta = true ->
      snd (MinimaxAgent.maxValue fuel s a d) = Ok (v, act) ->
      exists r act',
        snd (AlphaBetaAgent.maxValue fuel s a d alpha beta) = Ok (r, act') /\
        failSoft r v alpha beta) /\
  (forall s a d alpha beta v act,
      EZ_ltb alpha beta = true ->
      snd (MinimaxAgent.minValue fuel s a d) = Ok (v, act) ->
      exists r act',
        snd (AlphaBetaAgent.minValue fuel s a d alpha beta) = Ok (r, act') /\
        failSoft r v alpha beta).
Proof.
  induction fuel as [|fuel [IHmax IHmin]].
  - split; intros; discriminate.
  - split; intros s a d alpha beta v act Hlt Hmm.
    + rewrite minimax_maxValue_S in Hmm. rewrite alphabeta_maxValue_S.
      destruct (isLeaf s a d).
      * injection Hmm as <- <-. eexists _, _. split; [reflexivity|].
        apply failSoft_exact.
      * eapply maxLoop_failSoft;
          [apply (@branch_failSoft fuel s a d IHmax IHmin) | exact Hmm | ..];
          auto using EZ_leb_refl.
        destruct alpha; reflexivity.
    + rewrite minimax_minValue_S in Hmm. rewrite alphabeta_minValue_S.
      destruct (isLeaf s a d).
      * injection Hmm as <- <-. eexists _, _. split; [reflexivity|].
        apply failSoft_exact.
      * eapply minLoop_failSoft;
          [apply (@branch_failSoft fuel s a d IHmax IHmin) | exact Hmm | ..];
          auto using EZ_leb_refl.
Qed.

(** With the full window, alpha-beta returns the value and the action of
    minimax, with the same fuel. *)
Lemma alphabeta_root fuel gameState agent depth v a :
  snd (MinimaxAgent.maxValue fuel gameState agent depth) = Ok (v, a) ->
  snd (AlphaBetaAgent.maxValue fuel gameState agent depth NegInf PosInf)
  = Ok (v, a).
Proof.
  destruct fuel as [|fuel]; [discriminate|].
  rewrite minimax_maxValue_S, alphabeta_maxValue_S.
  destruct (isLeaf gameState agent depth); auto.
  destruct (alphabeta_failSoft fuel) as [IHmax IHmin].
  apply maxLoop_root; [|reflexivity].
  apply (@branch_failSoft fuel gameState agent depth IHmax IHmin).
Qed.

(** *** Evaluation calls *)

Lemma evaluations_bind (A B : Type) (m : M GameState A)
(f : A -> M GameState B) :
evaluations (fst (bind m f))
= evaluations (fst m)
  + match snd m with Ok a => evaluations (fst (f a)) | _ => 0 end.
Proof.
rewrite fst_bind, evaluations_app. destruct (snd m); reflexivity.
Qed.

Lemma evaluations_ret (A : Type) (a : A) :
evaluations (fst (@ret GameState A a)) = 0.
Proof. reflexivity. Qed.

Lemma mmBranch_evaluations fuel gameState agent depth action :
evaluations (fst (mmBranch fuel gameState agent depth action))
= match getNumAgents gameState with
  | O => 0
  | S _ => evaluations (fst (mmNext fuel gameState agent depth action))
  end.
Proof.
cbv beta. rewrite evaluations_bind. cbn [successor fst snd].
rewrite evaluations_bind. unfold nextAgentOf, mmNext, nextIndex.
destruct (getNumAgents gameState); [reflexivity|].
cbn [ret fst snd]. rewrite evaluations_bind.
destruct (snd _); cbn; lia.
Qed.

Lemma abBranch_evaluations fuel gameState agent depth action alpha beta :
evaluations (fst (abBranch fuel gameState agent depth action alpha beta))
= match getNumAgents gameState with
  | O => 0
  | S _ => evaluations
             (fst (abNext fuel gameState agent depth action alpha beta))
  end.
Proof.
cbv beta. rewrite evaluations_bind. cbn [successor fst snd].
rewrite evaluations_bind. unfold nextAgentOf, abNext, nextIndex.
destruct (getNumAgents gameState); [reflexivity|].
cbn [ret fst snd]. rewrite evaluations_bind.
destruct (snd _); cbn; lia.
Qed.

Section LoopCalls.

Variable child_mm : Directions -> M GameState EZ.
Variable child_ab : Directions -> EZ -> EZ -> M GameState EZ.

Hypothesis child_calls :
  forall action v alpha beta,
    snd (child_mm action) = Ok v ->
    (exists r, snd (child_ab action alpha beta) = Ok r) /\
    evaluations (fst (child_ab action alpha beta))
    <= evaluations (fst (child_mm action)).

Lemma maxLoop_calls actions :
  forall b act b' act' alpha beta r,
    snd (MinimaxAgent.maxLoop child_mm actions b act) = Ok r ->
    (exists r', snd (AlphaBetaAgent.maxLoop child_ab actions b' act' alpha beta)
                = Ok r') /\
    evaluations (fst (AlphaBetaAgent.maxLoop child_ab actions b' act' alpha beta))
    <= evaluations (fst (MinimaxAgent.maxLoop child_mm actions b act)).
Proof.
  induction actions as [|action rest IH];
    intros b act b' act' alpha beta r Hmm.
  - simpl. split; [eauto|lia].
  - pose proof Hmm as Hmm'. rewrite mm_maxLoop_cons in Hmm'.
    cbn [MinimaxAgent.maxLoop AlphaBetaAgent.maxLoop].
    rewrite snd_bind, !evaluations_bind.
    destruct (snd (child_mm action)) as [vi| |] eqn:Ec;
      cbn [obind] in Hmm'; try discriminate.
    destruct (child_calls action alpha beta Ec) as [[ri Hri] Hle].
    rewrite Hri. cbn [obind].
    destruct (EZ_leb beta ri).
    + split; [eexists; reflexivity|].
      unfold evaluations in *. cbn [ret fst filter length]. lia.
    + destruct (IH _ _ (if EZ_ltb b' ri then ri else b')
                   (if EZ_ltb b' ri then Some action else act')
                   (if EZ_ltb b' ri then EZ_max alpha ri else alpha)
                   beta _ Hmm') as [Hok Hrest].
      split; [exact Hok|].
      destruct (EZ_ltb b vi); lia.
Qed.

Lemma minLoop_calls actions :
  forall b act b' act' alpha beta r,
    snd (MinimaxAgent.minLoop child_mm actions b act) = Ok r ->
    (exists r', snd (AlphaBetaAgent.minLoop child_ab actions b' act' alpha beta)
                = Ok r') /\
    evaluations (fst (AlphaBetaAgent.minLoop child_ab actions b' act' alpha beta))
    <= evaluations (fst (MinimaxAgent.minLoop child_mm actions b act)).
Proof.
  induction actions as [|action rest IH];
    intros b act b' act' alpha beta r Hmm.
  - simpl. split; [eauto|lia].
  - pose proof Hmm as Hmm'. rewrite mm_minLoop_cons in Hmm'.
    cbn [MinimaxAgent.minLoop AlphaBetaAgent.minLoop].
    rewrite snd_bind, !evaluations_bind.
    destruct (snd (child_mm action)) as [vi| |] eqn:Ec;
      cbn [obind] in Hmm'; try discriminate.
    destruct (child_calls action alpha beta Ec) as [[ri Hri] Hle].
    rewrite Hri. cbn [obind].
    destruct (EZ_leb ri alpha).
    + split; [eexists; reflexivity|].
      unfold evaluations in *. cbn [ret fst filter length]. lia.
    + destruct (IH _ _ (if EZ_ltb ri b' then ri else b')
                   (if EZ_ltb ri b' then Some action else act')
                   alpha
                   (if EZ_ltb ri b' then EZ_min beta ri else beta)
                   _ Hmm') as [Hok Hrest].
      split; [exact Hok|].
      destruct (EZ_ltb vi b); lia.
Qed.

End LoopCalls.

(** Whenever minimax returns, alpha-beta returns too, whatever its window,
    and has called the evaluation function no more often. *)
Lemma alphabeta_evaluates_no_more fuel :
  (forall s a d alpha beta r,
      snd (MinimaxAgent.maxValue fuel s a d) = Ok r ->
      (exists r', snd (AlphaBetaAgent.maxValue fuel s a d alpha beta) = Ok r') /\
      evaluations (fst (AlphaBetaAgent.maxValue fuel s a d alpha beta))
      <= evaluations (fst (MinimaxAgent.maxValue fuel s a d))) /\
  (forall s a d alpha beta r,
      snd (MinimaxAgent.minValue fuel s a d) = Ok r ->
      (exists r', snd (AlphaBetaAgent.minValue fuel s a d alpha beta) = Ok r') /\
      evaluations (fst (AlphaBetaAgent.minValue fuel s a d alpha beta))
      <= evaluations (fst (MinimaxAgent.minValue fuel s a d))).
Proof.
induction fuel as [|fuel [IHmax IHmin]].
- split; intros; discriminate.
- assert (Hchild : forall s a d action v alpha beta,
             snd (mmBranch fuel s a d action) = Ok v ->
             (exists r, snd (abBranch fuel s a d action alpha beta) = Ok r) /\
             evaluations (fst (abBranch fuel s a d action alpha beta))
             <= evaluations (fst (mmBranch fuel s a d action))).
  { intros s a d action v alpha beta Hc.
    pose proof (mmBranch_outcome fuel s a d action) as Emm.
    pose proof (abBranch_outcome fuel s a d action alpha beta) as Eab.
    pose proof (mmBranch_evaluations fuel s a d action) as Cmm.
    pose proof (abBranch_evaluations fuel s a d action alpha beta) as Cab.
    cbv beta in Hc, Emm, Eab, Cmm, Cab |- *.
    rewrite Emm in Hc. rewrite Eab, Cmm, Cab. clear Emm Eab Cmm Cab.
    destruct (getNumAgents s); [discriminate|].
    unfold mmNext, abNext in *.
    destruct (nextIndex s a =? 0).
    - destruct (snd (MinimaxAgent.maxValue _ _ _ _)) as [r| |] eqn:E;
        cbn [obind] in Hc; try discriminate.
      destruct (IHmax _ _ _ alpha beta _ E) as [[r' ->] Hle].
      split; [cbn; eauto|exact Hle].
    - destruct (snd (MinimaxAgent.minValue _ _ _ _)) as [r| |] eqn:E;
        cbn [obind] in Hc; try discriminate.
      destruct (IHmin _ _ _ alpha beta _ E) as [[r' ->] Hle].
      split; [cbn; eauto|exact Hle]. }
  split; intros s a d alpha beta r Hmm.
  + pose proof Hmm as Hmm'. rewrite minimax_maxValue_S in Hmm'.
    rewrite alphabeta_maxValue_S.
    cbn [MinimaxAgent.maxValue AlphaBetaAgent.maxValue].
    fold (isLeaf s a d). destruct (isLeaf s a d).
    * split; [eauto|]. simpl. lia.
    * eapply maxLoop_calls; [|exact Hmm'].
      intros action v alpha' beta'. apply Hchild.
  + pose proof Hmm as Hmm'. rewrite minimax_minValue_S in Hmm'.
    rewrite alphabeta_minValue_S.
    cbn [MinimaxAgent.minValue AlphaBetaAgent.minValue].
    fold (isLeaf s a d). destruct (isLeaf s a d).
    * split; [eauto|]. simpl. lia.
    * eapply minLoop_calls; [|exact Hmm'].
      intros action v alpha' beta'. apply Hchild.
Qed.

Section ConstantAgents.

Variable n : nat.
Hypothesis numAgents_constant : forall gameState, getNumAgents gameState = n.

Lemma mmBranch_total fuel gameState agent depth action :
  agent < n -> depth < getTreeDepth ->
  enoughFuel n agent depth (S fuel) ->
  (forall s a d, a < n -> d <= getTreeDepth -> enoughFuel n a d fuel ->
      exists v act, snd (MinimaxAgent.maxValue fuel s a d) = Ok (v, act)) ->
  (forall s a d, a < n -> d <= getTreeDepth -> enoughFuel n a d fuel ->
      exists v act, snd (MinimaxAgent.minValue fuel s a d) = Ok (v, act)) ->
  exists v, snd (mmBranch fuel gameState agent depth action) = Ok v.
Proof.
  intros Ha Hd Hf IHmax IHmin.
  pose proof (mmBranch_outcome fuel gameState agent depth action) as Emm.
  cbv beta in Emm |- *. rewrite Emm. clear Emm.
  destruct (@next_turn getTreeDepth n agent depth fuel Ha Hd Hf)
    as (Ha' & Hd' & Hf').
  unfold mmNext, nextIndex. rewrite numAgents_constant.
  destruct n as [|n'] eqn:En; [lia|]. rewrite <- En in *.
  destruct ((agent + 1) mod n =? 0).
  - destruct (IHmax (generateSuccessor gameState agent action)
                    ((agent + 1) mod n) (depth + 1)) as (v & act & ->);
      auto.
    cbn [obind fst]. eauto.
  - destruct (IHmin (generateSuccessor gameState agent action)
                    ((agent + 1) mod n) depth) as (v & act & ->);
      auto.
    cbn [obind fst]. eauto.
Qed.

Lemma minimax_total fuel :
  (forall s a d, a < n -> d <= getTreeDepth -> enoughFuel n a d fuel ->
      exists v act, snd (MinimaxAgent.maxValue fuel s a d) = Ok (v, act)) /\
  (forall s a d, a < n -> d <= getTreeDepth -> enoughFuel n a d fuel ->
      exists v act, snd (MinimaxAgent.minValue fuel s a d) = Ok (v, act)).
Proof.
  induction fuel as [|fuel [IHmax IHmin]].
  - unfold enoughFuel. split; intros; nia.
  - split; intros s a d Ha Hd Hf.
    + rewrite minimax_maxValue_S. unfold isLeaf.
      destruct (Nat.eqb_spec d getTreeDepth) as [Ed|Ed]; cbn [orb]; [eauto|].
      destruct (isEmpty _); [eauto|].
      apply mm_maxLoop_total. intros action _.
      apply mmBranch_total; auto. lia.
    + rewrite minimax_minValue_S. unfold isLeaf.
      destruct (Nat.eqb_spec d getTreeDepth) as [Ed|Ed]; cbn [orb]; [eauto|].
      destruct (isEmpty _); [eauto|].
      apply mm_minLoop_total. intros action _.
      apply mmBranch_total; auto. lia.
Qed.

(** C3: in a game with a fixed number of agents, for every state, tree
    depth and evaluation function, with enough fuel, the root call of
    minimax returns a value and an action, and the root call of
    alpha-beta (window [-inf], [inf]) returns the same value and the same
    action; so do the two [getAction]: with or without ties. *)
Theorem alphabeta_agrees_with_minimax :
  0 < n ->
  forall (gameState : GameState) (fuel : nat),
    enoughFuel n 0 0 fuel ->
    exists v a,
      snd (MinimaxAgent.maxValue fuel gameState 0 0) = Ok (v, a) /\
      snd (AlphaBetaAgent.maxValue fuel gameState 0 0 NegInf PosInf)
      = Ok (v, a) /\
      snd (MinimaxAgent.getAction fuel gameState) = Ok a /\
      snd (AlphaBetaAgent.getAction fuel gameState) = Ok a.
Proof.
  intros Hn s fuel Hf.
  destruct (minimax_total fuel) as [Hmax _].
  destruct (Hmax s 0 0) as (v & a & Hmm); auto; [lia|].
  pose proof (alphabeta_root _ _ _ _ Hmm) as Hab.
  exists v, a. repeat split; auto.
  - unfold MinimaxAgent.getAction. rewrite snd_bind, Hmm. reflexivity.
  - unfold AlphaBetaAgent.getAction. rewrite snd_bind, Hab. reflexivity.
Qed.

End ConstantAgents.

End AlphaBetaFacts.

Lemma alphabeta_agrees_with_minimax_witness :
  exists v a,
    snd (@MinimaxAgent.maxValue _ walkGame (walkAgent 2) 6 0%Z 0 0) = Ok (v, a) /\
    snd (@AlphaBetaAgent.maxValue _ walkGame (walkAgent 2) 6 0%Z 0 0
                                  NegInf PosInf) = Ok (v, a).
Proof.
  destruct (@alphabeta_agrees_with_minimax Z walkGame (walkAgent 2) 2
              (fun _ => eq_refl) ltac:(lia) 0%Z 6)
    as (v & a & Hmm & Hab & _).
  - unfold enoughFuel. simpl. lia.
  - exists v, a. split; assumption.
Defined.

(** ** Breadth-first search *)

Section BfsFacts.

Variables State Action : Type.
Variable State_eq_dec : forall x y : State, {x = y} + {x <> y}.
Variable problem : SearchProblem State Action.

Local Abbreviation childNode actions :=
  (fun child : State * Action * Z =>
     (fst (fst child), actions ++ [snd (fst child)], 0%Z)).

Lemma pushChildren_app (frontier : list (Node State Action)) actions expand :
  pushChildren frontier actions expand
  = frontier ++ map (childNode actions) expand.
Proof.
  unfold pushChildren, push. revert frontier.
  induction expand as [|child expand IH]; intros frontier; simpl.
  - now rewrite app_nil_r.
  - rewrite IH, <- app_assoc. reflexivity.
Qed.

Lemma head_is_shortest (node : Node State Action) rest :
  twoLevels (node :: rest) ->
  forall node', In node' (node :: rest) ->
    length (nodePath node) <= length (nodePath node').
Proof.
  intros (k & older & newer & E & Ho & Hn) node' Hin.
  rewrite E in Hin. apply in_app_or in Hin.
  rewrite Forall_forall in Ho, Hn.
  destruct older as [|o older]; simpl in E.
  - subst newer. destruct Hin as [[]|Hin].
    rewrite (Hn node), (Hn node'); auto with datatypes.
  - injection E as <- ->.
    rewrite (Ho node) by auto with datatypes.
    destruct Hin as [Hin|Hin]; [rewrite (Ho _ Hin)|rewrite (Hn _ Hin)]; lia.
Qed.

Lemma twoLevels_tail (node : Node State Action) rest :
  twoLevels (node :: rest) -> twoLevels rest.
Proof.
  intros (k & older & newer & E & Ho & Hn).
  destruct older as [|o older]; simpl in E.
  - subst newer. inversion Hn; subst.
    exists (S k), rest, []. rewrite app_nil_r. auto.
  - injection E as <- ->. inversion Ho; subst.
    exists (length (nodePath node)), older, newer. auto.
Qed.

Lemma twoLevels_push (node : Node State Action) rest children :
  twoLevels (node :: rest) ->
  Forall (fun c => length (nodePath c) = S (length (nodePath node))) children ->
  twoLevels (rest ++ children).
Proof.
  intros (k & older & newer & E & Ho & Hn) Hc.
  destruct older as [|o older]; simpl in E.
  - subst newer. inversion Hn as [|? ? Hk Hrest]; subst.
    exists (S k), rest, children. rewrite Hk in Hc. auto.
  - injection E as <- ->. inversion Ho as [|? ? Hk Hrest]; subst.
    exists (length (nodePath node)), older, (newer ++ children).
    rewrite app_assoc. repeat split; auto.
    apply Forall_app. auto.
Qed.

(** Every state that a path no longer than the paths of the frontier
    leads to has been reached, or waits in the frontier with a path that
    is no longer. *)
Lemma covered frontier reached :
  bfsInvariant problem frontier reached ->
  forall actions state,
    pathTo problem actions state ->
    (forall node, In node frontier -> length actions <= length (nodePath node)) ->
    In state reached \/
    exists node, In node frontier /\ nodeState node = state /\
                 length (nodePath node) <= length actions.
Proof.
  intros Inv actions state Hpath.
  induction Hpath as [|actions state child action cost Hpath IH Hedge];
    intros Hshort.
  - destruct (start_seen Inv) as [Hin|(node & Hin & Hs & Hp)]; [now left|].
    right. exists node. rewrite Hp. auto.
  - rewrite length_app in *. simpl in *.
    destruct IH as [Hin|(node & Hin & _ & Hlen)].
    + intros node Hin. specialize (Hshort node Hin). lia.
    + destruct (@reached_expanded _ _ _ _ _ Inv _ _ _ _ _ Hin Hpath Hedge)
        as [Hr|(node & Hn & Hst & Hlen)]; [now left|].
      right. exists node. repeat split; auto. lia.
    + specialize (Hshort node Hin). lia.
Qed.

Lemma popped_is_shortest (node : Node State Action) rest reached :
  bfsInvariant problem (node :: rest) reached ->
  forall actions state,
    pathTo problem actions state ->
    ~ In state reached ->
    length (nodePath node) <= length actions.
Proof.
  intros Inv actions state Hpath Hnew.
  destruct (Nat.le_gt_cases (length (nodePath node)) (length actions))
    as [Hle|Hgt]; [exact Hle|exfalso].
  pose proof (head_is_shortest (frontier_levels Inv)) as Hmin.
  destruct (covered Inv Hpath) as [Hin|(node' & Hin & _ & Hlen)].
  - intros node' Hin. specialize (Hmin node' Hin). lia.
  - contradiction.
  - specialize (Hmin node' Hin). lia.
Qed.

Lemma inv_init :
  bfsInvariant problem [(startingState problem, [], 0%Z)] [].
Proof.
  constructor.
  - repeat constructor.
  - exists 0, [(startingState problem, [], 0%Z)], []. repeat constructor.
  - right. eexists. split; [now left|]. split; reflexivity.
  - intros r actions child action cost [].
  - intros r [].
  - intros r [].
Qed.

Lemma inv_skip (node : Node State Action) rest reached :
  bfsInvariant problem (node :: rest) reached ->
  In (nodeState node) reached ->
  bfsInvariant problem rest reached.
Proof.
  intros Inv Hseen. constructor.
  - pose proof (frontier_paths Inv) as Hp. inversion Hp; auto.
  - eapply twoLevels_tail. exact (frontier_levels Inv).
  - destruct (start_seen Inv) as [Hin|(node' & [<-|Hin] & Hs & Hp)].
    + now left.
    + left. rewrite <- Hs. exact Hseen.
    + right. eauto.
  - intros r actions child action cost Hr Hpath Hedge.
    destruct (@reached_expanded _ _ _ _ _ Inv _ _ _ _ _ Hr Hpath Hedge)
      as [Hin|(node' & [<-|Hin] & Hs & Hlen)].
    + now left.
    + left. rewrite <- Hs. exact Hseen.
    + right. eauto.
  - exact (reached_not_goal Inv).
  - exact (reached_paths Inv).
Qed.

Lemma inv_expand (node : Node State Action) rest reached :
  bfsInvariant problem (node :: rest) reached ->
  ~ In (nodeState node) reached ->
  isGoal problem (nodeState node) = false ->
  bfsInvariant problem
    (pushChildren rest (nodePath node)
                  (successorStates problem (nodeState node)))
    (reached ++ [nodeState node]).
Proof.
  intros Inv Hnew Hgoal. rewrite pushChildren_app.
  assert (Hnode : pathTo problem (nodePath node) (nodeState node)).
  { pose proof (frontier_paths Inv) as Hp. inversion Hp; auto. }
  constructor.
  - apply Forall_app. split.
    + pose proof (frontier_paths Inv) as Hp. inversion Hp; auto.
    + apply Forall_forall. intros c Hc. apply in_map_iff in Hc.
      destruct Hc as ([[child action] cost] & <- & Hedge).
      unfold nodePath, nodeState. simpl.
      eapply pathTo_step; eauto.
  - eapply twoLevels_push; [exact (frontier_levels Inv)|].
    apply Forall_forall. intros c Hc. apply in_map_iff in Hc.
    destruct Hc as (child & <- & _).
    unfold nodePath at 1. simpl. rewrite length_app. simpl. lia.
  - destruct (start_seen Inv) as [Hin|(node' & [<-|Hin] & Hs & Hp)].
    + left. apply in_or_app. now left.
    + left. apply in_or_app. right. rewrite Hs. now left.
    + right. exists node'. split; [apply in_or_app; now left|auto].
  - intros r actions child action cost Hr Hpath Hedge.
    apply in_app_or in Hr. destruct Hr as [Hr|[<-|[]]].
    + destruct (@reached_expanded _ _ _ _ _ Inv _ _ _ _ _ Hr Hpath Hedge)
        as [Hin|(node' & [<-|Hin] & Hs & Hlen)].
      * left. apply in_or_app. now left.
      * left. apply in_or_app. right. rewrite Hs. now left.
      * right. exists node'. split; [apply in_or_app; now left|auto].
    + right. exists (childNode (nodePath node) (child, action, cost)).
      split; [|split].
      * apply in_or_app. right.
        apply (in_map (childNode (nodePath node))) in Hedge. exact Hedge.
      * reflexivity.
      * unfold nodePath at 1. simpl. rewrite length_app. simpl.
        pose proof (popped_is_shortest Inv Hpath Hnew). lia.
  - intros r Hr. apply in_app_or in Hr. destruct Hr as [Hr|[<-|[]]]; auto.
    exact (@reached_not_goal _ _ _ _ _ Inv _ Hr).
  - intros r Hr. apply in_app_or in Hr. destruct Hr as [Hr|[<-|[]]]; eauto.
    exact (@reached_paths _ _ _ _ _ Inv _ Hr).
Qed.

(** What the loop returns, when it returns. *)
Lemma bfsLoop_sound fuel :
  forall frontier reached,
    bfsInvariant problem frontier reached ->
    match bfsLoop State_eq_dec fuel problem frontier reached with
    | Ok (Some actions) =>
        exists goal,
          pathTo problem actions goal /\ isGoal problem goal = true /\
          forall actions' goal',
            pathTo problem actions' goal' -> isGoal problem goal' = true ->
            length actions <= length actions'
    | Ok None => ~ goalReachable problem
    | Raise _ => False
    | OutOfFuel => True
    end.
Proof.
  induction fuel as [|fuel IH]; intros frontier reached Inv;
    destruct frontier as [|node rest]; cbn [bfsLoop pop].
  - intros (actions & state & Hpath & Hgoal).
    destruct (covered Inv Hpath) as [Hin|(node & [] & _)].
    + intros node [].
    + rewrite (@reached_not_goal _ _ _ _ _ Inv _ Hin) in Hgoal. discriminate.
  - exact I.
  - intros (actions & state & Hpath & Hgoal).
    destruct (covered Inv Hpath) as [Hin|(node & [] & _)].
    + intros node [].
    + rewrite (@reached_not_goal _ _ _ _ _ Inv _ Hin) in Hgoal. discriminate.
  - fold (nodeState node). fold (nodePath node).
    destruct (in_dec State_eq_dec (nodeState node) reached) as [Hseen|Hnew].
    + apply IH. eapply inv_skip; eauto.
    + destruct (isGoal problem (nodeState node)) eqn:Hgoal.
      * exists (nodeState node). split; [|split; [exact Hgoal|]].
        -- pose proof (frontier_paths Inv) as Hp. inversion Hp; auto.
        -- intros actions' goal' Hpath' Hgoal'.
           eapply popped_is_shortest; eauto.
           intros Hin. rewrite (@reached_not_goal _ _ _ _ _ Inv _ Hin) in Hgoal'.
           discriminate.
      * apply IH. apply inv_expand; auto.
Qed.

(** Expanding a state takes its successors off the pending ones. *)
Lemma pending_expand universe reached state :
  In state universe -> ~ In state reached ->
  pending problem State_eq_dec universe (reached ++ [state])
  + length (successorStates problem state)
  <= pending problem State_eq_dec universe reached.
Proof.
  unfold pending. intros Hin Hnew.
  assert (Hmono : forall l,
             list_sum (map (fun s => if in_dec State_eq_dec s (reached ++ [state])
                                     then 0
                                     else length (successorStates problem s)) l)
             <= list_sum (map (fun s => if in_dec State_eq_dec s reached
                                        then 0
                                        else length (successorStates problem s)) l)).
  { induction l as [|s l IHl]; simpl; [lia|].
    destruct (in_dec State_eq_dec s reached) as [Hs|Hs];
      destruct (in_dec State_eq_dec s (reached ++ [state])) as [Hs'|Hs'];
      try lia.
    exfalso. apply Hs'. apply in_or_app. now left. }
  induction universe as [|s universe IHu]; [destruct Hin|].
  simpl. destruct Hin as [->|Hin].
  - destruct (in_dec State_eq_dec state reached) as [Hs|Hs]; [contradiction|].
    destruct (in_dec State_eq_dec state (reached ++ [state])) as [Hs'|Hs'].
    + specialize (Hmono universe). lia.
    + exfalso. apply Hs'. apply in_or_app. right. now left.
  - specialize (IHu Hin).
    destruct (in_dec State_eq_dec s reached) as [Hs|Hs];
      destruct (in_dec State_eq_dec s (reached ++ [state])) as [Hs'|Hs'];
      try lia.
    exfalso. apply Hs'. apply in_or_app. now left.
Qed.

(** With a finite set of reachable states the loop ends: each iteration
    shortens the frontier or uses up the successors of a new state. *)
Lemma bfsLoop_terminates universe :
  (forall actions state, pathTo problem actions state -> In state universe) ->
  forall fuel frontier reached,
    bfsInvariant problem frontier reached ->
    length frontier + pending problem State_eq_dec universe reached <= fuel ->
    bfsLoop State_eq_dec fuel problem frontier reached <> OutOfFuel.
Proof.
  intros Hfinite.
  induction fuel as [|fuel IH]; intros frontier reached Inv Hfuel;
    destruct frontier as [|node rest]; cbn [bfsLoop pop]; try discriminate.
  - simpl in Hfuel. lia.
  - fold (nodeState node). fold (nodePath node).
    destruct (in_dec State_eq_dec (nodeState node) reached) as [Hseen|Hnew].
    + apply IH; [eapply inv_skip; eauto|]. simpl in Hfuel. lia.
    + destruct (isGoal problem (nodeState node)) eqn:Hgoal; [discriminate|].
      apply IH; [apply inv_expand; auto|].
      rewrite pushChildren_app, length_app, length_map.
      assert (Hin : In (nodeState node) universe).
      { pose proof (frontier_paths Inv) as Hp. inversion Hp; subst.
        eapply Hfinite; eauto. }
      pose proof (@pending_expand universe reached _ Hin Hnew). simpl in Hfuel. lia.
Qed.

(** C5: when the states reachable from the start are finitely many (all
    in [universe]), [breadthFirstSearch] returns, given fuel for one
    iteration per frontier node: if a goal is reachable, a path to a
    goal whose number of actions is the least among all paths from the
    start to any goal; if no goal is reachable, [None]. *)
Theorem breadthFirstSearch_shortest :
  forall universe : list State,
    (forall actions state, pathTo problem actions state -> In state universe) ->
    forall fuel,
      1 + pending problem State_eq_dec universe [] <= fuel ->
      (goalReachable problem ->
       exists actions goal,
         breadthFirstSearch State_eq_dec fuel problem = Ok (Some actions) /\
         pathTo problem actions goal /\ isGoal problem goal = true /\
         forall actions' goal',
           pathTo problem actions' goal' -> isGoal problem goal' = true ->
           length actions <= length actions') /\
      (~ goalReachable problem ->
       breadthFirstSearch State_eq_dec fuel problem = Ok None).
Proof.
  intros universe Hfinite fuel Hfuel.
  unfold breadthFirstSearch.
  destruct (isGoal problem (startingState problem)) eqn:Hstart.
  - split.
    + intros _. exists [], (startingState problem).
      repeat split; auto using pathTo_start. intros; simpl; lia.
    + intros Hno. exfalso. apply Hno.
      exists [], (startingState problem). auto using pathTo_start.
  - cbn [push app].
    pose proof (@bfsLoop_sound fuel _ _ inv_init) as Hsound.
    pose proof (@bfsLoop_terminates universe Hfinite fuel _ _ inv_init Hfuel)
      as Hterm.
    revert Hsound Hterm. unfold Node.
    destruct (bfsLoop _ _ _ _ _) as [[actions|]| |]; intros Hsound Hterm;
      try contradiction.
    + destruct Hsound as (goal & Hpath & Hgoal & Hmin). split.
      * intros _. exists actions, goal. repeat split; auto.
      * intros Hno. exfalso. apply Hno. exists actions, goal. auto.
    + split; [contradiction|reflexivity].
Qed.

End BfsFacts.

(** The 4x4 grid: every reachable cell is on the grid, and the goal corner
    is reachable. *)
Lemma grid_reachable (problem : SearchProblem Position Directions) :
  startingState problem = (0, 0)%Z ->
  successorStates problem = successorStates gridProblem ->
  forall actions state, pathTo problem actions state -> In state gridCells.
Proof.
  intros Hstart Hsucc actions state Hpath.
  induction Hpath as [|actions [x y] child action cost Hpath IH Hedge].
  - rewrite Hstart. vm_compute. auto.
  - rewrite Hsucc in Hedge. cbn [successorStates gridProblem] in Hedge.
    apply filter_In in Hedge. destruct Hedge as [_ Hon].
    unfold onGrid in Hon. cbn [fst] in Hon.
    destruct (in_dec Position_eq_dec child gridCells); [assumption|discriminate].
Qed.

Lemma grid_goal_reachable : goalReachable gridProblem.
Proof.
  exists [EAST; EAST; EAST; NORTH; NORTH; NORTH], (3, 3)%Z.
  split; [|reflexivity].
  change [EAST; EAST; EAST; NORTH; NORTH; NORTH]
    with ((((((([] ++ [EAST]) ++ [EAST]) ++ [EAST]) ++ [NORTH]) ++ [NORTH])
            ++ [NORTH])).
  apply pathTo_step with (state := (3, 2)%Z) (cost := 1%Z);
    [|vm_compute; tauto].
  apply pathTo_step with (state := (3, 1)%Z) (cost := 1%Z);
    [|vm_compute; tauto].
  apply pathTo_step with (state := (3, 0)%Z) (cost := 1%Z);
    [|vm_compute; tauto].
  apply pathTo_step with (state := (2, 0)%Z) (cost := 1%Z);
    [|vm_compute; tauto].
  apply pathTo_step with (state := (1, 0)%Z) (cost := 1%Z);
    [|vm_compute; tauto].
  apply pathTo_step with (state := (0, 0)%Z) (cost := 1%Z);
    [|vm_compute; tauto].
  apply (pathTo_start gridProblem).
Qed.

Lemma grid_no_goal : ~ goalReachable noGoalProblem.
Proof.
  intros (actions & state & Hpath & Hgoal).
  apply (@grid_reachable noGoalProblem eq_refl eq_refl) in Hpath.
  revert Hgoal. vm_compute in Hpath.
  repeat (destruct Hpath as [<-|Hpath]; [vm_compute; discriminate|]).
  destruct Hpath.
Qed.

Lemma breadthFirstSearch_shortest_witness :
  (exists actions,
      breadthFirstSearch Position_eq_dec 49 gridProblem = Ok (Some actions) /\
      length actions = 6) /\
  breadthFirstSearch Position_eq_dec 49 noGoalProblem = Ok None.
Proof.
  split.
  - destruct (@breadthFirstSearch_shortest
                _ _ Position_eq_dec gridProblem gridCells
                (@grid_reachable gridProblem eq_refl eq_refl) 49)
      as [Hfound _].
    + vm_compute. lia.
    + destruct (Hfound grid_goal_reachable) as (actions & goal & Hrun & _).
      exists actions. split; [exact Hrun|].
      vm_compute in Hrun. injection Hrun as <-. reflexivity.
  - destruct (@breadthFirstSearch_shortest
                _ _ Position_eq_dec noGoalProblem gridCells
                (@grid_reachable noGoalProblem eq_refl eq_refl) 49)
      as [_ Hnone].
    + vm_compute. lia.
    + exact (Hnone grid_no_goal).
Defined.

(** * Further properties *)

(** ** More on the evaluators *)

Section EvaluatorValues.

Local Open Scope Z_scope.

Lemma manhattan_nonneg (p q : Position) : 0 <= manhattan p q.
Proof. unfold manhattan. lia. Qed.

Lemma insert_sorted_first (x : Z) (l : list Z) :
  first (insert_sorted x l)
  = Ok (match l with [] => x | y :: _ => if x <=? y then x else y end).
Proof. destruct l as [|y r]; simpl; [|destruct (x <=? y)]; reflexivity. Qed.

(** After [sort], the first element is the least. *)
Lemma sort_first_least (l : list Z) :
  l <> [] ->
  exists m, first (sort l) = Ok m /\ In m l /\ Forall (fun y => m <= y) l.
Proof.
  induction l as [|x r IH]; [congruence|intros _].
  change (sort (x :: r)) with (insert_sorted x (sort r)).
  rewrite insert_sorted_first.
  destruct r as [|x' r'].
  - exists x. simpl. repeat split; auto. constructor; [lia|constructor].
  - destruct IH as (m & Hm & Hin & Hall); [discriminate|].
    destruct (sort (x' :: r')) as [|y s]; [discriminate|].
    simpl in Hm. injection Hm as ->.
    destruct (Z.leb_spec x m).
    + exists x. repeat split; [now left|].
      constructor; [lia|]. eapply Forall_impl; [|exact Hall]. simpl. intros; lia.
    + exists m. repeat split; [now right|].
      constructor; [lia|exact Hall].
Qed.

Lemma reflex_avoidGhosts_spec (ghostDistances : list Z) (eval : Z) :
  ReflexAgent.avoidGhosts ghostDistances eval
  = if existsb (fun d => d <? 2) ghostDistances then -999999 else eval.
Proof.
  unfold ReflexAgent.avoidGhosts. revert eval.
  induction ghostDistances as [|d l IH]; intros eval; simpl; auto.
  rewrite IH. destruct (d <? 2); simpl; auto.
  destruct (existsb _ l); reflexivity.
Qed.

Lemma avoidGhosts_spec (ghostDistances : list Z) (eval : Z) :
  avoidGhosts ghostDistances eval
  = if existsb (fun d => d <? 1) ghostDistances then sentinel else eval.
Proof.
  unfold avoidGhosts. revert eval.
  induction ghostDistances as [|d l IH]; intros eval; simpl; auto.
  rewrite IH. destruct (d <? 1); simpl; auto.
  destruct (existsb _ l); reflexivity.
Qed.

Lemma existsb_map_pred (A B : Type) (f : A -> B) (p : B -> bool) (l : list A) :
  existsb p (map f l) = existsb (fun x => p (f x)) l.
Proof. induction l as [|x l IH]; simpl; congruence. Qed.

(** X1: with food on the board, the reflex evaluation is minus the least
    Manhattan distance from Pacman's new position to the food of the current
    state, unless a ghost of the successor is within distance 1 of the new
    position: then it is -999999. It is never positive. *)
Theorem reflex_evaluation_value :
  forall (generatePacmanSuccessor : PacmanGameState -> Directions -> PacmanGameState)
         (currentGameState : PacmanGameState) (action : Directions),
    getFood currentGameState <> [] ->
    let successorGameState := generatePacmanSuccessor currentGameState action in
    let newPosition := getPacmanPosition successorGameState in
    exists d v,
      In d (map (manhattan newPosition) (getFood currentGameState)) /\
      Forall (fun y => d <= y) (map (manhattan newPosition) (getFood currentGameState)) /\
      ReflexAgent.evaluationFunction generatePacmanSuccessor currentGameState action
      = Ok v /\
      v = (if existsb (fun ghost => manhattan newPosition ghost <? 2)
                      (getGhostStates successorGameState)
           then -999999 else - d) /\
      v <= 0.
Proof.
  intros gen s action Hfood succ pos.
  destruct (@sort_first_least (map (manhattan pos) (getFood s)))
    as (d & Hd & Hin & Hall).
  { destruct (getFood s); [congruence|discriminate]. }
  exists d. eexists. split; [exact Hin|]. split; [exact Hall|].
  unfold ReflexAgent.evaluationFunction. fold succ. fold pos.
  rewrite Hd. cbn [obind]. rewrite reflex_avoidGhosts_spec, existsb_map_pred.
  split; [reflexivity|]. split; [reflexivity|].
  destruct (existsb _ _); [lia|].
  apply in_map_iff in Hin. destruct Hin as (f & <- & _).
  pose proof (manhattan_nonneg pos f). lia.
Qed.

Lemma reflex_evaluation_value_witness :
  exists d v,
    ReflexAgent.evaluationFunction movePacman safeState EAST = Ok v /\
    v = - d /\ d = 1.
Proof.
  destruct (@reflex_evaluation_value movePacman safeState EAST)
    as (d & v & Hin & _ & Hrun & Hv & _).
  - discriminate.
  - exists d, v. split; [exact Hrun|].
    vm_compute in Hin. destruct Hin as [<-|[]].
    split; [exact Hv|reflexivity].
Defined.

(** X2: [betterEvaluationFunction] never raises, and its value never exceeds
    the score of the state. *)
Theorem better_evaluation_total :
  forall s : PacmanGameState,
    exists v, betterEvaluationFunction s = Ok v /\ v <= getScore s.
Proof.
  intros s. unfold betterEvaluationFunction.
  destruct (getFood s) as [|f fs] eqn:Ef; cbn [isEmpty].
  - exists (getScore s). split; [reflexivity|lia].
  - set (distances := if isEmpty _ then _ else _).
    destruct (@pymin_spec distances) as (m & -> & Hin & _).
    { subst distances. rewrite isEmpty_map.
      destruct (getCapsules s); simpl; discriminate. }
    cbn [obind]. eexists. split; [reflexivity|].
    rewrite avoidGhosts_spec.
    destruct (existsb _ _); [unfold sentinel; lia|].
    assert (0 <= m); [|lia].
    subst distances.
    destruct (isEmpty _); apply in_map_iff in Hin;
      destruct Hin as (o & <- & _); apply manhattan_nonneg.
Qed.

(** X3: capsules come first. With food left and no ghost on Pacman's cell, the
    value is the score minus the least distance to a capsule when a capsule
    remains (whatever the food), and minus the least distance to the food
    when none does. *)
Theorem better_evaluation_objective :
  forall s : PacmanGameState,
    getFood s <> [] ->
    Forall (fun ghost => 1 <= manhattan (getPacmanPosition s) ghost)
           (getGhostStates s) ->
    exists d,
      betterEvaluationFunction s = Ok (getScore s - d) /\
      (getCapsules s <> [] ->
       In d (map (manhattan (getPacmanPosition s)) (getCapsules s)) /\
       Forall (fun y => d <= y)
              (map (manhattan (getPacmanPosition s)) (getCapsules s))) /\
      (getCapsules s = [] ->
       In d (map (manhattan (getPacmanPosition s)) (getFood s)) /\
       Forall (fun y => d <= y)
              (map (manhattan (getPacmanPosition s)) (getFood s))).
Proof.
  intros s Hfood Hghosts. unfold betterEvaluationFunction.
  destruct (getFood s) as [|f fs] eqn:Ef; [congruence|]. cbn [isEmpty].
  set (distances := if isEmpty _ then _ else _).
  destruct (@pymin_spec distances) as (m & Hm & Hin & Hall).
  { subst distances. rewrite isEmpty_map.
    destruct (getCapsules s); simpl; discriminate. }
  rewrite Hm. cbn [obind]. rewrite avoidGhosts_clear.
  - exists m. split; [f_equal; lia|].
    subst distances. rewrite isEmpty_map in *.
    destruct (getCapsules s) as [|c cs]; cbn [isEmpty] in *; split;
      intros; try congruence; auto.
  - apply Forall_forall. intros d Hd. apply in_map_iff in Hd.
    destruct Hd as (g & <- & Hg). rewrite Forall_forall in Hghosts. auto.
Qed.

Lemma better_evaluation_objective_witness :
  betterEvaluationFunction capsuleState = Ok 16.
Proof.
  destruct (@better_evaluation_objective capsuleState)
    as (d & Hrun & Hcaps & _).
  - discriminate.
  - repeat constructor; vm_compute; discriminate.
  - destruct Hcaps as [Hin _]; [discriminate|].
    vm_compute in Hin. destruct Hin as [<-|[]]. exact Hrun.
Defined.

End EvaluatorValues.

(** ** The no-op filter *)

Lemma remove_first_keeps (l : list Directions) :
  filter (fun a => negb (Directions_eqb a STOP)) (remove_first STOP l)
  = filter (fun a => negb (Directions_eqb a STOP)) l /\
  length (filter (Directions_eqb STOP) (remove_first STOP l))
  = pred (length (filter (Directions_eqb STOP) l)).
Proof.
  induction l as [|y r [IH1 IH2]]; simpl; [auto|].
  destruct y; simpl; auto; rewrite IH1; auto.
Qed.

(** X4: the no-op filter drops one occurrence of [STOP] and nothing else:
    the other actions stay, in their order, and [STOP] itself is still there
    exactly when the list held it more than once. *)
Theorem removeStop_keeps_others :
  forall legalActions : list Directions,
    filter (fun a => negb (Directions_eqb a STOP)) (removeStop legalActions)
    = filter (fun a => negb (Directions_eqb a STOP)) legalActions /\
    length (filter (Directions_eqb STOP) (removeStop legalActions))
    = pred (length (filter (Directions_eqb STOP) legalActions)) /\
    (In STOP (removeStop legalActions) <->
     2 <= length (filter (Directions_eqb STOP) legalActions)).
Proof.
  intros l.
  assert (H12 :
    filter (fun a => negb (Directions_eqb a STOP)) (removeStop l)
    = filter (fun a => negb (Directions_eqb a STOP)) l /\
    length (filter (Directions_eqb STOP) (removeStop l))
    = pred (length (filter (Directions_eqb STOP) l))).
  { unfold removeStop. destruct (existsb (Directions_eqb STOP) l) eqn:E.
    - apply remove_first_keeps.
    - split; [reflexivity|].
      assert (Hnone : filter (Directions_eqb STOP) l = []).
      { induction l as [|y r IH]; simpl in *; auto.
        apply orb_false_elim in E. destruct E as [-> E]. auto. }
      rewrite Hnone. reflexivity. }
  destruct H12 as [H1 H2]. split; [exact H1|]. split; [exact H2|].
  assert (Hcount : forall l', In STOP l' <->
                              1 <= length (filter (Directions_eqb STOP) l')).
  { intros l'. split.
    - intros Hin.
      assert (Hf : In STOP (filter (Directions_eqb STOP) l')).
      { apply filter_In. split; auto. }
      destruct (filter _ l'); [destruct Hf|simpl; lia].
    - intros Hlen. destruct (filter (Directions_eqb STOP) l') as [|y r] eqn:E;
        [simpl in Hlen; lia|].
      assert (Hy : In y (filter (Directions_eqb STOP) l')) by (rewrite E; now left).
      apply filter_In in Hy. destruct Hy as [Hy Heq].
      destruct (Directions_eqb_spec STOP y); [subst; auto|discriminate]. }
  rewrite Hcount, H2. lia.
Qed.

(** ** The reflex agent's choice *)

Section ReflexChoice.

Variable generatePacmanSuccessor : PacmanGameState -> Directions -> PacmanGameState.
Variable getLegalMoves : PacmanGameState -> list Directions.

Local Open Scope Z_scope.

Lemma mapOutcome_spec (A B : Type) (f : A -> outcome B) (l : list A) ys :
  mapOutcome f l = Ok ys <-> Forall2 (fun x y => f x = Ok y) l ys.
Proof.
  revert ys. induction l as [|x r IH]; intros ys; simpl.
  - split; [intros [= <-]; constructor|intros Hall; inversion Hall; auto].
  - split.
    + destruct (f x) as [y| |] eqn:E; simpl; try discriminate.
      destruct (mapOutcome f r) as [ys'| |]; simpl; try discriminate.
      intros [= <-]. constructor; auto. apply IH. reflexivity.
    + intros Hall. inversion Hall as [|? y ? ys' Hy Hr]; subst.
      rewrite Hy. simpl. apply IH in Hr. rewrite Hr. reflexivity.
Qed.

Lemma mapOutcome_raise (A B : Type) (f : A -> outcome B) (x : A) r e :
  f x = Raise e -> mapOutcome f (x :: r) = Raise e.
Proof. intros E. simpl. rewrite E. reflexivity. Qed.

Lemma pymax_fold_spec (r : list Z) (x : Z) :
  let m := fold_left (fun m y => if m <? y then y else m) r x in
  In m (x :: r) /\ x <= m /\ Forall (fun y => y <= m) r.
Proof.
  revert x. induction r as [|y r IH]; intros x; simpl.
  - repeat split; auto; lia.
  - specialize (IH (if x <? y then y else x)). simpl in IH.
    destruct IH as (Hin & Hle & Hall).
    destruct (Z.ltb_spec x y).
    + repeat split; [destruct Hin as [<-|Hin]; auto|lia|constructor; auto].
    + repeat split; [destruct Hin as [<-|Hin]; auto|lia|constructor; auto; lia].
Qed.

Lemma pymax_spec (l : list Z) (m : Z) :
  pymax l = Ok m -> In m l /\ Forall (fun y => y <= m) l.
Proof.
  destruct l as [|x r]; simpl; [discriminate|]. intros [= <-].
  destruct (pymax_fold_spec r x) as (Hin & Hle & Hall). split; auto.
Qed.

Lemma item_spec (A : Type) (l : list A) (i : nat) (x : A) :
  item l i = Ok x <-> nth_error l i = Some x.
Proof.
  unfold item. destruct (nth_error l i); split; congruence.
Qed.

Lemma randomChoice_In (A : Type) (draw : nat) (l : list A) (x : A) :
  randomChoice draw l = Ok x -> In x l.
Proof.
  unfold randomChoice. destruct l as [|y r]; [discriminate|].
  intros Hx. apply item_spec in Hx. eapply nth_error_In; eauto.
Qed.

Lemma randomChoice_any (A : Type) (l : list A) (x : A) :
  In x l -> exists draw, randomChoice draw l = Ok x.
Proof.
  intros Hin. apply In_nth_error in Hin. destruct Hin as [i Hi].
  exists i. destruct l as [|y r]; [destruct i; discriminate|].
  unfold randomChoice. rewrite Nat.mod_small.
  - apply item_spec. exact Hi.
  - apply nth_error_Some. congruence.
Qed.

Lemma Forall2_nth_error (A B : Type) (R : A -> B -> Prop) l l' i a :
  Forall2 R l l' -> nth_error l i = Some a ->
  exists b, nth_error l' i = Some b /\ R a b.
Proof.
  intros Hall. revert i. induction Hall as [|x y l l' Hxy Hall IH]; intros i.
  - destruct i; discriminate.
  - destruct i as [|i]; simpl.
    + intros [= <-]. eauto.
    + apply IH.
Qed.

Lemma bestIndicesOf_spec (scores : list Z) (bestScore : Z) (i : nat) :
  In i (ReflexAgent.bestIndicesOf scores bestScore) <->
  (i < length scores)%nat /\ nth i scores 0 = bestScore.
Proof.
  unfold ReflexAgent.bestIndicesOf. rewrite filter_In, in_seq, Z.eqb_eq.
  simpl. intuition lia.
Qed.

(** X5: whatever the random draw, the action [getAction] returns is a legal
    move whose evaluation is the greatest among the legal moves. *)
Theorem reflex_getAction_best :
  forall (draw : nat) (gameState : PacmanGameState) (action : Directions),
    ReflexAgent.getAction generatePacmanSuccessor getLegalMoves draw gameState
    = Ok action ->
    In action (getLegalMoves gameState) /\
    exists score,
      ReflexAgent.evaluationFunction generatePacmanSuccessor gameState action
      = Ok score /\
      forall other, In other (getLegalMoves gameState) ->
        exists s, ReflexAgent.evaluationFunction generatePacmanSuccessor
                    gameState other = Ok s /\ s <= score.
Proof.
  intros draw s action. unfold ReflexAgent.getAction.
  destruct (mapOutcome _ _) as [scores| |] eqn:Escores; cbn [obind];
    try discriminate.
  apply mapOutcome_spec in Escores.
  destruct (pymax scores) as [best| |] eqn:Ebest; cbn [obind]; try discriminate.
  apply pymax_spec in Ebest. destruct Ebest as [_ Hmax].
  destruct (randomChoice draw _) as [i| |] eqn:Ei; cbn [obind]; try discriminate.
  apply randomChoice_In, bestIndicesOf_spec in Ei. destruct Ei as [Hi Hbest].
  intros Hitem. apply item_spec in Hitem.
  split; [eapply nth_error_In; eauto|].
  destruct (Forall2_nth_error i Escores Hitem) as (sc & Hsc & Heval).
  exists sc. split; [exact Heval|].
  assert (sc = best) as ->.
  { rewrite <- Hbest. symmetry. apply nth_error_nth. exact Hsc. }
  intros other Hother. apply In_nth_error in Hother. destruct Hother as [j Hj].
  destruct (Forall2_nth_error j Escores Hj) as (sj & Hsj & Hevalj).
  exists sj. split; [exact Hevalj|].
  rewrite Forall_forall in Hmax. apply Hmax. eapply nth_error_In; eauto.
Qed.

(** X6: with food on the board and a legal move, [getAction] returns an
    action for every draw, and every legal move of greatest evaluation is
    returned for some draw. *)
Theorem reflex_getAction_any_best :
  forall gameState : PacmanGameState,
    getFood gameState <> [] ->
    getLegalMoves gameState <> [] ->
    (forall draw, exists action,
        ReflexAgent.getAction generatePacmanSuccessor getLegalMoves draw gameState
        = Ok action) /\
    (forall action score,
        In action (getLegalMoves gameState) ->
        ReflexAgent.evaluationFunction generatePacmanSuccessor gameState action
        = Ok score ->
        (forall other s,
            In other (getLegalMoves gameState) ->
            ReflexAgent.evaluationFunction generatePacmanSuccessor gameState other
            = Ok s -> s <= score) ->
        exists draw,
          ReflexAgent.getAction generatePacmanSuccessor getLegalMoves draw gameState
          = Ok action).
Proof.
  intros s Hfood Hlegal.
  assert (Hscores : exists scores,
    Forall2 (fun a sc => ReflexAgent.evaluationFunction
                           generatePacmanSuccessor s a = Ok sc)
            (getLegalMoves s) scores).
  { apply Forall2_choice. intros a _.
    unfold ReflexAgent.evaluationFunction.
    destruct (getFood s) as [|f fs]; [congruence|].
    destruct (sort _) as [|d rest] eqn:E.
    - exfalso. revert E. simpl.
      generalize (sort (map (manhattan (getPacmanPosition
                    (generatePacmanSuccessor s a))) fs)).
      intros l. destruct l as [|y r]; simpl; [discriminate|].
      destruct (_ <=? y); discriminate.
    - simpl. eauto. }
  destruct Hscores as [scores Hscores].
  pose proof Hscores as Hrun. apply mapOutcome_spec in Hrun.
  assert (Hlen : length (getLegalMoves s) = length scores)
    by (eapply Forall2_length; eauto).
  destruct (pymax scores) as [best| |] eqn:Ebest;
    try (destruct scores; [destruct (getLegalMoves s); simpl in *; congruence
                          |discriminate]).
  pose proof (pymax_spec _ Ebest) as [Hin Hmax].
  assert (Hitem : forall i, In i (ReflexAgent.bestIndicesOf scores best) ->
                            exists a, item (getLegalMoves s) i = Ok a).
  { intros i Hi. apply bestIndicesOf_spec in Hi. destruct Hi as [Hi _].
    destruct (nth_error (getLegalMoves s) i) as [a|] eqn:E.
    - exists a. apply item_spec. exact E.
    - apply nth_error_None in E. lia. }
  split.
  - intros draw. unfold ReflexAgent.getAction. rewrite Hrun. cbn [obind]. rewrite Ebest. cbn [obind].
    assert (Hsome : exists i, In i (ReflexAgent.bestIndicesOf scores best)).
    { apply In_nth_error in Hin. destruct Hin as [i Hi]. exists i.
      apply bestIndicesOf_spec. split.
      - apply nth_error_Some. congruence.
      - apply nth_error_nth. exact Hi. }
    destruct (ReflexAgent.bestIndicesOf scores best) as [|i0 rest] eqn:Eb.
    { destruct Hsome as [i []]. }
    assert (Hdraw : exists i, randomChoice draw (i0 :: rest) = Ok i /\
                              In i (i0 :: rest)).
    { unfold randomChoice.
      destruct (nth_error (i0 :: rest) (draw mod length (i0 :: rest)))
        as [i|] eqn:E.
      - exists i. split; [apply item_spec; exact E|eapply nth_error_In; eauto].
      - apply nth_error_None in E.
        pose proof (Nat.mod_upper_bound draw (length (i0 :: rest))).
        simpl in *. lia. }
    destruct Hdraw as (i & -> & Hi). cbn [obind]. apply Hitem. exact Hi.
  - intros action score Haction Heval Hbest.
    apply In_nth_error in Haction. destruct Haction as [i Hi].
    destruct (Forall2_nth_error i Hscores Hi) as (sc & Hsc & Hevali).
    assert (sc = score) by congruence. subst sc.
    assert (score = best).
    { apply Z.le_antisymm.
      - rewrite Forall_forall in Hmax. apply Hmax. eapply nth_error_In; eauto.
      - apply In_nth_error in Hin. destruct Hin as [j Hj].
        assert (Hjlen : (j < length (getLegalMoves s))%nat).
        { rewrite Hlen. apply nth_error_Some. congruence. }
        destruct (nth_error (getLegalMoves s) j) as [other|] eqn:Eo;
          [|apply nth_error_None in Eo; lia].
        destruct (Forall2_nth_error j Hscores Eo) as (sj & Hsj & Hevalj).
        assert (sj = best) by congruence. subst sj.
        eapply Hbest; [eapply nth_error_In; eauto|exact Hevalj]. }
    subst best.
    assert (Hib : In i (ReflexAgent.bestIndicesOf scores score)).
    { apply bestIndicesOf_spec. split.
      - apply nth_error_Some. congruence.
      - apply nth_error_nth. exact Hsc. }
    destruct (randomChoice_any _ _ Hib) as [draw Hdraw].
    exists draw. unfold ReflexAgent.getAction.
    rewrite Hrun. cbn [obind]. rewrite Ebest. cbn [obind]. rewrite Hdraw. cbn [obind].
    apply item_spec. exact Hi.
Qed.

(** X7: [getAction] fails on its edge cases: without a legal move [max] of
    no score raises [ValueError]; with a legal move and no food left the
    first evaluation raises [IndexError]. *)
Theorem reflex_getAction_faults :
  forall (draw : nat) (gameState : PacmanGameState),
    (getLegalMoves gameState = [] ->
     ReflexAgent.getAction generatePacmanSuccessor getLegalMoves draw gameState
     = Raise ValueError) /\
    (getLegalMoves gameState <> [] -> getFood gameState = [] ->
     ReflexAgent.getAction generatePacmanSuccessor getLegalMoves draw gameState
     = Raise IndexError).
Proof.
  intros draw s. unfold ReflexAgent.getAction. split.
  - intros ->. reflexivity.
  - intros Hlegal Hfood. destruct (getLegalMoves s) as [|a r]; [congruence|].
    rewrite (@mapOutcome_raise _ _ _ a r IndexError); [reflexivity|].
    unfold ReflexAgent.evaluationFunction. rewrite Hfood. reflexivity.
Qed.

End ReflexChoice.

Lemma reflex_getAction_best_witness :
  ReflexAgent.getAction movePacman (fun _ => [EAST; WEST; STOP]) 7 safeState
  = Ok EAST /\
  exists score,
    ReflexAgent.evaluationFunction movePacman safeState EAST = Ok score /\
    forall other, In other [EAST; WEST; STOP] ->
      exists s, ReflexAgent.evaluationFunction movePacman safeState other = Ok s /\
                (s <= score)%Z.
Proof.
  split; [reflexivity|].
  exact (proj2 (@reflex_getAction_best movePacman (fun _ => [EAST; WEST; STOP])
                  7 safeState EAST eq_refl)).
Defined.

Lemma reflex_getAction_any_best_witness :
  (exists action,
      ReflexAgent.getAction movePacman (fun _ => [EAST; WEST; STOP]) 7 safeState
      = Ok action) /\
  (exists draw,
      ReflexAgent.getAction movePacman (fun _ => [EAST; WEST; STOP]) draw safeState
      = Ok EAST).
Proof.
  destruct (@reflex_getAction_any_best movePacman (fun _ => [EAST; WEST; STOP])
              safeState) as [Hall Hsome].
  - discriminate.
  - discriminate.
  - split; [exact (Hall 7)|].
    apply (Hsome EAST (-1)%Z); [now left|reflexivity|].
    intros other s [<-|[<-|[<-|[]]]]; vm_compute; intros [= <-]; discriminate.
Defined.

(** ** Which action minimax keeps *)

Section MinimaxChoice.

Context {GameState : Type}
        `{AbstractGameState GameState} `{MultiAgentSearchAgent GameState}.

Local Abbreviation mmBranch fuel gameState agent depth :=
  (fun action =>
     bind (successor gameState agent action)
          (fun successorGameState =>
             bind (nextAgentOf gameState agent)
                  (fun nextAgent =>
                     bind (if (nextAgent =? 0)%nat
                           then MinimaxAgent.maxValue
                                  fuel successorGameState nextAgent
                                  (depth + 1)%nat
                           else MinimaxAgent.minValue
                                  fuel successorGameState nextAgent
                                  depth%nat)
                          (fun r => ret (fst r))))).

Lemma EZ_ltb_trans (x y z : EZ) :
  EZ_ltb x y = true -> EZ_ltb y z = true -> EZ_ltb x z = true.
Proof. intros. ez. Qed.

Lemma EZ_nlt_lt_trans (x y z : EZ) :
  EZ_ltb x y = false -> EZ_ltb x z = true -> EZ_ltb y z = true.
Proof. intros. ez. Qed.

Lemma EZ_lt_nlt_trans (x y z : EZ) :
  EZ_ltb y x = false -> EZ_ltb z x = true -> EZ_ltb z y = true.
Proof. intros. ez. Qed.

Section Loop.

Variable child : Directions -> M GameState EZ.

(** The loop of [maxValue] keeps the first action of greatest value. *)
Lemma mm_maxLoop_first actions :
  forall b act v a,
    snd (MinimaxAgent.maxLoop child actions b act) = Ok (v, a) ->
    (v = b /\ a = act /\
     forall x, In x actions ->
       exists w, snd (child x) = Ok w /\ EZ_ltb b w = false) \/
    (exists pre action post,
        actions = pre ++ action :: post /\ a = Some action /\
        snd (child action) = Ok v /\ EZ_ltb b v = true /\
        (forall x, In x pre ->
           exists w, snd (child x) = Ok w /\ EZ_ltb w v = true) /\
        (forall x, In x post ->
           exists w, snd (child x) = Ok w /\ EZ_leb w v = true)).
Proof.
  induction actions as [|x rest IH]; intros b act v a Hrun.
  - left. simpl in Hrun. injection Hrun as <- <-. repeat split; auto.
    intros x [].
  - rewrite mm_maxLoop_cons in Hrun.
    destruct (snd (child x)) as [w0| |] eqn:Ex; cbn [obind] in Hrun;
      try discriminate.
    destruct (EZ_ltb b w0) eqn:E.
    + destruct (IH _ _ _ _ Hrun)
        as [(-> & -> & Hrest)
           |(pre & action & post & -> & -> & Hv & Hlt & Hpre & Hpost)].
      * right. exists [], x, rest. repeat split; auto.
        -- intros y [].
        -- intros y Hy. destruct (Hrest y Hy) as (w & Hw & Hle).
           exists w. split; auto. unfold EZ_leb. rewrite Hle. reflexivity.
      * right. exists (x :: pre), action, post. repeat split; auto.
        -- eapply EZ_ltb_trans; eauto.
        -- intros y [<-|Hy]; [eauto|auto].
    + destruct (IH _ _ _ _ Hrun)
        as [(-> & -> & Hrest)
           |(pre & action & post & -> & -> & Hv & Hlt & Hpre & Hpost)].
      * left. repeat split; auto. intros y [<-|Hy]; [eauto|auto].
      * right. exists (x :: pre), action, post. repeat split; auto.
        intros y [<-|Hy]; [|auto].
        exists w0. split; auto. eapply EZ_nlt_lt_trans; eauto.
Qed.

(** The loop of [minValue] keeps the first action of least value. *)
Lemma mm_minLoop_first actions :
  forall b act v a,
    snd (MinimaxAgent.minLoop child actions b act) = Ok (v, a) ->
    (v = b /\ a = act /\
     forall x, In x actions ->
       exists w, snd (child x) = Ok w /\ EZ_ltb w b = false) \/
    (exists pre action post,
        actions = pre ++ action :: post /\ a = Some action /\
        snd (child action) = Ok v /\ EZ_ltb v b = true /\
        (forall x, In x pre ->
           exists w, snd (child x) = Ok w /\ EZ_ltb v w = true) /\
        (forall x, In x post ->
           exists w, snd (child x) = Ok w /\ EZ_leb v w = true)).
Proof.
  induction actions as [|x rest IH]; intros b act v a Hrun.
  - left. simpl in Hrun. injection Hrun as <- <-. repeat split; auto.
    intros x [].
  - rewrite mm_minLoop_cons in Hrun.
    destruct (snd (child x)) as [w0| |] eqn:Ex; cbn [obind] in Hrun;
      try discriminate.
    destruct (EZ_ltb w0 b) eqn:E.
    + destruct (IH _ _ _ _ Hrun)
        as [(-> & -> & Hrest)
           |(pre & action & post & -> & -> & Hv & Hlt & Hpre & Hpost)].
      * right. exists [], x, rest. repeat split; auto.
        -- intros y [].
        -- intros y Hy. destruct (Hrest y Hy) as (w & Hw & Hle).
           exists w. split; auto. unfold EZ_leb. rewrite Hle. reflexivity.
      * right. exists (x :: pre), action, post. repeat split; auto.
        -- eapply EZ_ltb_trans; eauto.
        -- intros y [<-|Hy]; [eauto|auto].
    + destruct (IH _ _ _ _ Hrun)
        as [(-> & -> & Hrest)
           |(pre & action & post & -> & -> & Hv & Hlt & Hpre & Hpost)].
      * left. repeat split; auto. intros y [<-|Hy]; [eauto|auto].
      * right. exists (x :: pre), action, post. repeat split; auto.
        intros y [<-|Hy]; [|auto].
        exists w0. split; auto. eapply EZ_lt_nlt_trans; eauto.
Qed.

End Loop.

Lemma mmBranch_value fuel gameState agent depth action w :
  snd (mmBranch fuel gameState agent depth action) = Ok w ->
  minimaxBranch fuel gameState agent depth action w.
Proof.
  intros Hc.
  pose proof (mmBranch_outcome fuel gameState agent depth action) as E.
  cbv beta in Hc, E. rewrite E in Hc. clear E.
  destruct (getNumAgents gameState); [discriminate|].
  destruct (snd (mmNext _ _ _ _ _)) as [[w' a]| |] eqn:En; cbn in Hc;
    try discriminate.
  injection Hc as <-. exists a. exact En.
Qed.

Lemma nonleaf_actions (gameState : GameState) agent depth :
  isLeaf gameState agent depth = false ->
  depth <> getTreeDepth /\
  exists x rest, removeStop (getLegalActions gameState agent) = x :: rest.
Proof.
  unfold isLeaf. intros Hleaf. apply orb_false_elim in Hleaf.
  destruct Hleaf as [Hd He]. split; [now apply Nat.eqb_neq|].
  destruct (removeStop _) as [|x rest]; [discriminate|eauto].
Qed.

(** Every value minimax returns is a number. *)
Lemma minimax_finite fuel :
  (forall s a d v act,
      snd (MinimaxAgent.maxValue fuel s a d) = Ok (v, act) -> exists z, v = Fin z) /\
  (forall s a d v act,
      snd (MinimaxAgent.minValue fuel s a d) = Ok (v, act) -> exists z, v = Fin z).
Proof.
  induction fuel as [|fuel [IHmax IHmin]].
  - split; intros; discriminate.
  - assert (Hbranch : forall s a d x w,
               snd (mmBranch fuel s a d x) = Ok w -> exists z, w = Fin z).
    { intros s a d x w Hc. apply mmBranch_value in Hc.
      destruct Hc as [a' Hn]. unfold mmNext in Hn.
      destruct (nextIndex s a =? 0); eauto. }
    split; intros s a d v act Hrun.
    + rewrite minimax_maxValue_S in Hrun.
      destruct (isLeaf s a d) eqn:Hleaf; [injection Hrun as <- <-; eauto|].
      apply nonleaf_actions in Hleaf. destruct Hleaf as (_ & x & rest & El).
      apply mm_maxLoop_first in Hrun.
      destruct Hrun as [(-> & -> & Hall)|(pre & y & post & _ & _ & Hv & _)].
      * destruct (Hall x) as (w & Hw & Hlt); [rewrite El; now left|].
        destruct (Hbranch _ _ _ _ _ Hw) as [z ->]. discriminate.
      * eauto.
    + rewrite minimax_minValue_S in Hrun.
      destruct (isLeaf s a d) eqn:Hleaf; [injection Hrun as <- <-; eauto|].
      apply nonleaf_actions in Hleaf. destruct Hleaf as (_ & x & rest & El).
      apply mm_minLoop_first in Hrun.
      destruct Hrun as [(-> & -> & Hall)|(pre & y & post & _ & _ & Hv & _)].
      * destruct (Hall x) as (w & Hw & Hlt); [rewrite El; now left|].
        destruct (Hbranch _ _ _ _ _ Hw) as [z ->]. discriminate.
      * eauto.
Qed.


End MinimaxChoice.


(** ** The action a search returns *)

Lemma removeStop_incl (legalActions : list Directions) :
  incl (removeStop legalActions) legalActions.
Proof.
  unfold removeStop. destruct (existsb _ _); [|apply incl_refl].
  induction legalActions as [|y r IH]; simpl; [apply incl_refl|].
  destruct (Directions_eqb y STOP).
  - apply incl_tl, incl_refl.
  - intros x [<-|Hx]; [now left|right; auto].
Qed.

Section SearchChoice.

Context {GameState : Type}
        `{AbstractGameState GameState} `{MultiAgentSearchAgent GameState}.

Local Abbreviation abBranch fuel gameState agent depth :=
  (fun action alpha beta =>
     bind (successor gameState agent action)
          (fun successorGameState =>
             bind (nextAgentOf gameState agent)
                  (fun nextAgent =>
                     bind (if (nextAgent =? 0)%nat
                           then AlphaBetaAgent.maxValue
                                  fuel successorGameState nextAgent
                                  (depth + 1)%nat alpha beta
                           else AlphaBetaAgent.minValue
                                  fuel successorGameState nextAgent
                                  depth%nat alpha beta)
                          (fun r => ret (fst r))))).

Lemma nonleaf_actions' (gameState : GameState) agent depth :
  isLeaf gameState agent depth = false ->
  exists x rest, removeStop (getLegalActions gameState agent) = x :: rest.
Proof.
  unfold isLeaf. intros Hleaf. apply orb_false_elim in Hleaf.
  destruct Hleaf as [Hd He].
  destruct (removeStop _) as [|x rest]; [discriminate|eauto].
Qed.

Section Loop.

Variable child : Directions -> EZ -> EZ -> M GameState EZ.

Lemma ab_maxLoop_result actions :
  forall b act alpha beta v a,
    snd (AlphaBetaAgent.maxLoop child actions b act alpha beta) = Ok (v, a) ->
    (v = b /\ a = act) \/
    (exists action alpha',
        In action actions /\ a = Some action /\
        snd (child action alpha' beta) = Ok v).
Proof.
  induction actions as [|x rest IH]; intros b act alpha beta v a Hrun.
  - left. simpl in Hrun. injection Hrun as <- <-. auto.
  - rewrite ab_maxLoop_cons in Hrun.
    destruct (snd (child x alpha beta)) as [w| |] eqn:Ex; cbn [obind] in Hrun;
      try discriminate.
    destruct (EZ_leb beta w).
    + injection Hrun as <- <-. right. exists x, alpha. auto with datatypes.
    + destruct (IH _ _ _ _ _ _ Hrun) as [[-> ->]|(y & alpha' & Hy & -> & Hv)].
      * destruct (EZ_ltb b w); [|now left].
        right. exists x, alpha. auto with datatypes.
      * right. exists y, alpha'. auto with datatypes.
Qed.

Lemma ab_minLoop_result actions :
  forall b act alpha beta v a,
    snd (AlphaBetaAgent.minLoop child actions b act alpha beta) = Ok (v, a) ->
    (v = b /\ a = act) \/
    (exists action beta',
        In action actions /\ a = Some action /\
        snd (child action alpha beta') = Ok v).
Proof.
  induction actions as [|x rest IH]; intros b act alpha beta v a Hrun.
  - left. simpl in Hrun. injection Hrun as <- <-. auto.
  - rewrite ab_minLoop_cons in Hrun.
    destruct (snd (child x alpha beta)) as [w| |] eqn:Ex; cbn [obind] in Hrun;
      try discriminate.
    destruct (EZ_leb w alpha).
    + injection Hrun as <- <-. right. exists x, beta. auto with datatypes.
    + destruct (IH _ _ _ _ _ _ Hrun) as [[-> ->]|(y & beta' & Hy & -> & Hv)].
      * destruct (EZ_ltb w b); [|now left].
        right. exists x, beta. auto with datatypes.
      * right. exists y, beta'. auto with datatypes.
Qed.

Hypothesis child_finite :
  forall action alpha beta w,
    snd (child action alpha beta) = Ok w -> exists z, w = Fin z.

Lemma ab_maxLoop_chosen x rest alpha beta v a :
  snd (AlphaBetaAgent.maxLoop child (x :: rest) NegInf None alpha beta)
  = Ok (v, a) ->
  exists action alpha',
    In action (x :: rest) /\ a = Some action /\
    snd (child action alpha' beta) = Ok v.
Proof.
  intros Hrun. rewrite ab_maxLoop_cons in Hrun.
  destruct (snd (child x alpha beta)) as [w| |] eqn:Ex; cbn [obind] in Hrun;
    try discriminate.
  destruct (child_finite _ _ _ Ex) as [z ->].
  destruct (EZ_leb beta (Fin z)).
  - injection Hrun as <- <-. exists x, alpha. auto with datatypes.
  - change (EZ_ltb NegInf (Fin z)) with true in Hrun. cbv iota in Hrun.
    apply ab_maxLoop_result in Hrun.
    destruct Hrun as [[-> ->]|(y & alpha' & Hy & -> & Hv)].
    + exists x, alpha. auto with datatypes.
    + exists y, alpha'. auto with datatypes.
Qed.

Lemma ab_minLoop_chosen x rest alpha beta v a :
  snd (AlphaBetaAgent.minLoop child (x :: rest) PosInf None alpha beta)
  = Ok (v, a) ->
  exists action beta',
    In action (x :: rest) /\ a = Some action /\
    snd (child action alpha beta') = Ok v.
Proof.
  intros Hrun. rewrite ab_minLoop_cons in Hrun.
  destruct (snd (child x alpha beta)) as [w| |] eqn:Ex; cbn [obind] in Hrun;
    try discriminate.
  destruct (child_finite _ _ _ Ex) as [z ->].
  destruct (EZ_leb (Fin z) alpha).
  - injection Hrun as <- <-. exists x, beta. auto with datatypes.
  - change (EZ_ltb (Fin z) PosInf) with true in Hrun. cbv iota in Hrun.
    apply ab_minLoop_result in Hrun.
    destruct Hrun as [[-> ->]|(y & beta' & Hy & -> & Hv)].
    + exists x, beta. auto with datatypes.
    + exists y, beta'. auto with datatypes.
Qed.

End Loop.

(** At a node that is not a leaf alpha-beta returns a number and one of the
    actions it was given. *)
Lemma alphabeta_chosen fuel :
  (forall s a d alpha beta v act,
      snd (AlphaBetaAgent.maxValue fuel s a d alpha beta) = Ok (v, act) ->
      (exists z, v = Fin z) /\
      (isLeaf s a d = false ->
       exists action, In action (removeStop (getLegalActions s a)) /\
                      act = Some action)) /\
  (forall s a d alpha beta v act,
      snd (AlphaBetaAgent.minValue fuel s a d alpha beta) = Ok (v, act) ->
      (exists z, v = Fin z) /\
      (isLeaf s a d = false ->
       exists action, In action (removeStop (getLegalActions s a)) /\
                      act = Some action)).
Proof.
  induction fuel as [|fuel [IHmax IHmin]].
  - split; intros; discriminate.
  - assert (Hbranch : forall s a d x alpha beta w,
               snd (abBranch fuel s a d x alpha beta) = Ok w ->
               exists z, w = Fin z).
    { intros s a d x alpha beta w Hc.
      pose proof (abBranch_outcome fuel s a d x alpha beta) as E.
      cbv beta in Hc, E. rewrite E in Hc. clear E.
      destruct (getNumAgents s); [discriminate|]. unfold abNext in Hc.
      destruct (nextIndex s a =? 0).
      - destruct (snd (AlphaBetaAgent.maxValue _ _ _ _ _ _)) as [[w' a']| |] eqn:En;
          cbn in Hc; try discriminate.
        injection Hc as <-. eapply IHmax; eauto.
      - destruct (snd (AlphaBetaAgent.minValue _ _ _ _ _ _)) as [[w' a']| |] eqn:En;
          cbn in Hc; try discriminate.
        injection Hc as <-. eapply IHmin; eauto. }
    split; intros s a d alpha beta v act Hrun.
    + rewrite alphabeta_maxValue_S in Hrun.
      destruct (isLeaf s a d) eqn:Hleaf.
      * injection Hrun as <- <-. split; [eauto|discriminate].
      * destruct (nonleaf_actions' _ _ _ Hleaf) as (x & rest & El).
        rewrite El in *.
        apply ab_maxLoop_chosen in Hrun; [|intros; eapply Hbranch; eauto].
        destruct Hrun as (y & alpha' & Hy & -> & Hv). split; eauto.
    + rewrite alphabeta_minValue_S in Hrun.
      destruct (isLeaf s a d) eqn:Hleaf.
      * injection Hrun as <- <-. split; [eauto|discriminate].
      * destruct (nonleaf_actions' _ _ _ Hleaf) as (x & rest & El).
        rewrite El in *.
        apply ab_minLoop_chosen in Hrun; [|intros; eapply Hbranch; eauto].
        destruct Hrun as (y & beta' & Hy & -> & Hv). split; eauto.
Qed.

(** *** Expectimax at the root *)

Lemma Q_ltb_true (x y : Q) : Q_ltb x y = true <-> (x < y)%Q.
Proof.
  unfold Q_ltb. rewrite negb_true_iff. split.
  - intros E. apply Qnot_le_lt. intros Hc. apply Qle_bool_iff in Hc. congruence.
  - intros Hlt. destruct (Qle_bool y x) eqn:E; auto.
    apply Qle_bool_iff in E. exfalso. eapply Qlt_not_le; eauto.
Qed.

Lemma Q_ltb_false (x y : Q) : Q_ltb x y = false <-> (y <= x)%Q.
Proof.
  unfold Q_ltb. rewrite negb_false_iff. apply Qle_bool_iff.
Qed.

Lemma bestLoop_cons fuel (gameState : GameState) x rest b act :
  snd (ExpectimaxAgent.bestLoop fuel gameState (x :: rest) b act)
  = obind (snd (ExpectimaxAgent.expectimaxValue
                  fuel (generateSuccessor gameState 0 x) 1 0))
          (fun w =>
             snd (ExpectimaxAgent.bestLoop
                    fuel gameState rest
                    (if ext_ltb Q_ltb b (Fin w) then Fin w else b)
                    (if ext_ltb Q_ltb b (Fin w) then Some x else act))).
Proof.
  cbn [ExpectimaxAgent.bestLoop]. rewrite snd_bind. cbn [successor snd obind].
  rewrite snd_bind.
  destruct (snd (ExpectimaxAgent.expectimaxValue _ _ _ _)) as [w| |];
    cbn [obind]; auto.
  destruct (ext_ltb Q_ltb b (Fin w)); reflexivity.
Qed.

(** The loop of the expectimax [getAction] keeps an action of greatest
    expected value. *)
Lemma bestLoop_best fuel (gameState : GameState) actions :
  forall b act a,
    snd (ExpectimaxAgent.bestLoop fuel gameState actions b act) = Ok a ->
    (a = act /\
     forall x, In x actions ->
       exists w, snd (ExpectimaxAgent.expectimaxValue
                        fuel (generateSuccessor gameState 0 x) 1 0) = Ok w /\
                 ext_ltb Q_ltb b (Fin w) = false) \/
    (exists action v,
        In action actions /\ a = Some action /\
        snd (ExpectimaxAgent.expectimaxValue
               fuel (generateSuccessor gameState 0 action) 1 0) = Ok v /\
        ext_ltb Q_ltb b (Fin v) = true /\
        forall x, In x actions ->
          exists w, snd (ExpectimaxAgent.expectimaxValue
                           fuel (generateSuccessor gameState 0 x) 1 0) = Ok w /\
                    (w <= v)%Q).
Proof.
  induction actions as [|x rest IH]; intros b act a Hrun.
  - left. simpl in Hrun. injection Hrun as <-. split; auto. intros x [].
  - rewrite bestLoop_cons in Hrun.
    destruct (snd (ExpectimaxAgent.expectimaxValue _ _ _ _)) as [w0| |] eqn:Ex;
      cbn [obind] in Hrun; try discriminate.
    destruct (ext_ltb Q_ltb b (Fin w0)) eqn:E.
    + destruct (IH _ _ _ Hrun) as [(-> & Hrest)|(y & v & Hy & -> & Hv & Hlt & Hall)].
      * right. exists x, w0. repeat split; auto with datatypes.
        intros y [<-|Hy].
        -- exists w0. split; auto. apply Qle_refl.
        -- destruct (Hrest y Hy) as (w & Hw & Hle). exists w. split; auto.
           simpl in Hle. apply Q_ltb_false in Hle. exact Hle.
      * right. exists y, v. simpl in Hlt. apply Q_ltb_true in Hlt.
        repeat split; auto with datatypes.
        -- destruct b as [|q|]; simpl in *; auto.
           apply Q_ltb_true in E. apply Q_ltb_true.
           eapply Qlt_trans; eauto.
        -- intros z [<-|Hz]; [|auto].
           exists w0. split; auto. apply Qlt_le_weak. exact Hlt.
    + destruct (IH _ _ _ Hrun) as [(-> & Hrest)|(y & v & Hy & -> & Hv & Hlt & Hall)].
      * left. split; auto. intros y [<-|Hy]; eauto.
      * right. exists y, v. repeat split; auto with datatypes.
        intros z [<-|Hz]; [|auto].
        exists w0. split; auto.
        destruct b as [|q|]; simpl in *; try discriminate.
        apply Q_ltb_false in E. apply Q_ltb_true in Hlt.
        apply Qlt_le_weak. eapply Qle_lt_trans; eauto.
Qed.


(** *** Minimax and alpha-beta at the root *)


Lemma bestLoop_returns fuel (gameState : GameState) actions :
  (forall x, In x actions ->
     exists w, snd (ExpectimaxAgent.expectimaxValue
                      fuel (generateSuccessor gameState 0 x) 1 0) = Ok w) ->
  forall b act,
    exists a, snd (ExpectimaxAgent.bestLoop fuel gameState actions b act) = Ok a.
Proof.
  induction actions as [|x rest IH]; intros Hall b act.
  - eexists. reflexivity.
  - rewrite bestLoop_cons.
    destruct (Hall x) as [w ->]; [now left|]. cbn [obind].
    apply IH. intros y Hy. apply Hall. now right.
Qed.

(** X11: the depth limit counts differently at the root. With a depth limit of
    0 the minimax and the alpha-beta [getAction] evaluate the state once,
    generate no successor and return [None], whatever the legal actions;
    the expectimax [getAction] still looks one move ahead: it returns a
    legal action (no-op apart) whose successor the evaluation function
    rates highest. *)
Theorem getAction_depth_zero :
  getTreeDepth = 0 ->
  forall (fuel : nat) (gameState : GameState),
    MinimaxAgent.getAction (S fuel) gameState = ([Evaluated gameState], Ok None) /\
    AlphaBetaAgent.getAction (S fuel) gameState
    = ([Evaluated gameState], Ok None) /\
    (removeStop (getLegalActions gameState 0) <> [] ->
     exists action,
       snd (ExpectimaxAgent.getAction (S fuel) gameState) = Ok (Some action) /\
       In action (removeStop (getLegalActions gameState 0)) /\
       forall other, In other (removeStop (getLegalActions gameState 0)) ->
         (_evaluationFunction (generateSuccessor gameState 0 other)
          <= _evaluationFunction (generateSuccessor gameState 0 action))%Z).
Proof.
  intros Hdepth fuel s.
  split; [|split].
  - unfold MinimaxAgent.getAction. cbn [MinimaxAgent.maxValue].
    rewrite Hdepth. reflexivity.
  - unfold AlphaBetaAgent.getAction. cbn [AlphaBetaAgent.maxValue].
    rewrite Hdepth. reflexivity.
  - intros Hlegal.
    assert (Hleaf : forall s',
               snd (ExpectimaxAgent.expectimaxValue (S fuel) s' 1 0)
               = Ok (inject_Z (_evaluationFunction s'))).
    { intros s'. rewrite expectimaxValue_S. unfold isLeaf.
      rewrite Hdepth. reflexivity. }
    unfold ExpectimaxAgent.getAction.
    destruct (removeStop (getLegalActions s 0)) as [|x rest] eqn:El;
      [congruence|].
    cbn [isEmpty].
    destruct (@bestLoop_returns (S fuel) s (x :: rest)) with
      (b := @NegInf Q) (act := @None Directions) as [a Hrun].
    { intros y _. rewrite Hleaf. eauto. }
    pose proof Hrun as Hbest. apply bestLoop_best in Hbest.
    destruct Hbest as [(-> & Hall)|(y & v & Hy & -> & Hv & _ & Hall)].
    + destruct (Hall x) as (w & _ & Hlt); [now left|]. discriminate.
    + exists y. split; [exact Hrun|]. split; [exact Hy|].
      intros other Hother. destruct (Hall other Hother) as (w & Hw & Hle).
      rewrite Hleaf in Hv, Hw. injection Hv as <-. injection Hw as <-.
      rewrite Zle_Qle. exact Hle.
Qed.

(** *** Alpha-beta against minimax, in general *)

(** X12: for every window [alpha < beta], where minimax returns [v], alpha-beta
    returns a value [r] that is [v] when it lies strictly inside the window,
    an upper bound of [v] when [r <= alpha], a lower bound when
    [beta <= r]. *)
Theorem alphabeta_window :
  forall (alpha beta : EZ),
    EZ_ltb alpha beta = true ->
    forall (fuel : nat) (gameState : GameState) (agent depth : nat),
      (forall v a,
          snd (MinimaxAgent.maxValue fuel gameState agent depth) = Ok (v, a) ->
          exists r a',
            snd (AlphaBetaAgent.maxValue fuel gameState agent depth alpha beta)
            = Ok (r, a') /\
            (EZ_ltb alpha r = true -> EZ_ltb r beta = true -> r = v) /\
            (EZ_leb r alpha = true -> EZ_leb v r = true) /\
            (EZ_leb beta r = true -> EZ_leb r v = true)) /\
      (forall v a,
          snd (MinimaxAgent.minValue fuel gameState agent depth) = Ok (v, a) ->
          exists r a',
            snd (AlphaBetaAgent.minValue fuel gameState agent depth alpha beta)
            = Ok (r, a') /\
            (EZ_ltb alpha r = true -> EZ_ltb r beta = true -> r = v) /\
            (EZ_leb r alpha = true -> EZ_leb v r = true) /\
            (EZ_leb beta r = true -> EZ_leb r v = true)).
Proof.
  intros alpha beta Hlt fuel s agent depth.
  destruct (alphabeta_failSoft fuel) as [Hmax Hmin].
  split; intros v a Hrun.
  - destruct (Hmax _ _ _ _ _ _ _ Hlt Hrun) as (r & a' & Hr & H1 & H2 & H3).
    exists r, a'. auto.
  - destruct (Hmin _ _ _ _ _ _ _ Hlt Hrun) as (r & a' & Hr & H1 & H2 & H3).
    exists r, a'. auto.
Qed.

(** X13: whenever the minimax [getAction] returns, the alpha-beta [getAction]
    returns the same action and has called the evaluation function no more
    often. *)
Theorem alphabeta_never_evaluates_more :
  forall (fuel : nat) (gameState : GameState) (a : option Directions),
    snd (MinimaxAgent.getAction fuel gameState) = Ok a ->
    snd (AlphaBetaAgent.getAction fuel gameState) = Ok a /\
    evaluations (fst (AlphaBetaAgent.getAction fuel gameState))
    <= evaluations (fst (MinimaxAgent.getAction fuel gameState)).
Proof.
  intros fuel s a Hrun.
  unfold MinimaxAgent.getAction, AlphaBetaAgent.getAction in *.
  rewrite snd_bind in Hrun. rewrite snd_bind, !fst_bind, !evaluations_app.
  destruct (snd (MinimaxAgent.maxValue fuel s 0 0)) as [[v act]| |] eqn:E;
    cbn in Hrun; try discriminate.
  injection Hrun as <-.
  rewrite (alphabeta_root _ _ _ _ E).
  destruct (alphabeta_evaluates_no_more fuel) as [Hmax _].
  destruct (Hmax s 0 0 NegInf PosInf _ E) as [_ Hle].
  split; [reflexivity|]. cbn. lia.
Qed.

(** *** Termination *)


End SearchChoice.



Lemma getAction_depth_zero_witness :
  @MinimaxAgent.getAction _ walkGame (walkAgent 0) 1 5%Z
  = ([Evaluated 5%Z], Ok None) /\
  snd (@ExpectimaxAgent.getAction _ walkGame (walkAgent 0) 1 5%Z)
  = Ok (Some NORTH).
Proof.
  destruct (@getAction_depth_zero Z walkGame (walkAgent 0) eq_refl 0 5%Z)
    as (Hmm & _ & Hem).
  split; [exact Hmm|].
  destruct Hem as (action & Hrun & _); [discriminate|].
  rewrite Hrun. vm_compute in Hrun. injection Hrun as <-. reflexivity.
Defined.

Lemma alphabeta_window_witness :
  exists r a',
    snd (@AlphaBetaAgent.maxValue _ (treeGame 2) (treeAgent 2) 4 prunableTree 0 0
                                  (Fin 2%Z) (Fin 10%Z)) = Ok (r, a') /\
    (EZ_ltb (Fin 2%Z) r = true -> EZ_ltb r (Fin 10%Z) = true -> r = Fin 3%Z).
Proof.
  destruct (@alphabeta_window GameTree (treeGame 2) (treeAgent 2)
              (Fin 2%Z) (Fin 10%Z) eq_refl 4 prunableTree 0 0) as [Hmax _].
  destruct (Hmax (Fin 3%Z) (Some NORTH) eq_refl) as (r & a' & Hr & Hin & _).
  exists r, a'. split; [exact Hr|exact Hin].
Defined.

Lemma alphabeta_never_evaluates_more_witness :
  snd (@AlphaBetaAgent.getAction _ (treeGame 2) (treeAgent 2) 4 prunableTree)
  = Ok (Some NORTH) /\
  evaluations (fst (@AlphaBetaAgent.getAction _ (treeGame 2) (treeAgent 2)
                                              4 prunableTree))
  <= evaluations (fst (@MinimaxAgent.getAction _ (treeGame 2) (treeAgent 2)
                                               4 prunableTree)).
Proof.
  exact (@alphabeta_never_evaluates_more GameTree (treeGame 2) (treeAgent 2)
           4 prunableTree (Some NORTH) eq_refl).
Defined.


(** ** Values against the evaluation function *)

Section Means.

Local Open Scope Q_scope.

Lemma inject_nat_succ (n : nat) :
  inject_Z (Z.of_nat (S n)) == inject_Z (Z.of_nat n) + 1.
Proof. rewrite Nat2Z.inj_succ, <- Z.add_1_r, inject_Z_plus. reflexivity. Qed.

Lemma fold_Qplus_lower (lo : Q) (l : list Q) :
  Forall (fun q => lo <= q) l ->
  forall a, a + lo * inject_Z (Z.of_nat (length l)) <= fold_left Qplus l a.
Proof.
  induction 1 as [|x l Hx Hl IH]; intros a.
  - cbn [fold_left length Z.of_nat].
    assert (E : lo * inject_Z 0 == 0) by ring. rewrite E. lra.
  - cbn [fold_left length]. rewrite inject_nat_succ.
    specialize (IH (a + x)).
    assert (E : lo * (inject_Z (Z.of_nat (length l)) + 1)
                == lo * inject_Z (Z.of_nat (length l)) + lo) by ring.
    rewrite E. revert IH.
    generalize (lo * inject_Z (Z.of_nat (length l))).
    generalize (fold_left Qplus l (a + x)). intros; lra.
Qed.

Lemma fold_Qplus_upper (hi : Q) (l : list Q) :
  Forall (fun q => q <= hi) l ->
  forall a, fold_left Qplus l a <= a + hi * inject_Z (Z.of_nat (length l)).
Proof.
  induction 1 as [|x l Hx Hl IH]; intros a.
  - cbn [fold_left length Z.of_nat].
    assert (E : hi * inject_Z 0 == 0) by ring. rewrite E. lra.
  - cbn [fold_left length]. rewrite inject_nat_succ.
    specialize (IH (a + x)).
    assert (E : hi * (inject_Z (Z.of_nat (length l)) + 1)
                == hi * inject_Z (Z.of_nat (length l)) + hi) by ring.
    rewrite E. revert IH.
    generalize (hi * inject_Z (Z.of_nat (length l))).
    generalize (fold_left Qplus l (a + x)). intros; lra.
Qed.

Lemma inject_nat_pos (n : nat) : (0 < n)%nat -> 0 < inject_Z (Z.of_nat n).
Proof.
  intros Hn. change 0 with (inject_Z 0). rewrite <- Zlt_Qlt. lia.
Qed.

(** The mean of values that are all at least [lo] (at most [hi]) is. *)
Lemma floatDiv_lower (lo : Q) (values : list Q) (v : Q) :
  Forall (fun q => lo <= q) values ->
  floatDiv (sumQ values) (length values) = Ok v -> lo <= v.
Proof.
  intros Hall. unfold floatDiv.
  destruct (length values) as [|n] eqn:En; [discriminate|]. intros [= <-].
  apply Qle_shift_div_l; [apply (@inject_nat_pos (S n)); lia|].
  pose proof (fold_Qplus_lower Hall 0) as Hs. rewrite En in Hs.
  unfold sumQ. cbn [Z.of_nat] in Hs |- *. rewrite Qplus_0_l in Hs. exact Hs.
Qed.

Lemma floatDiv_upper (hi : Q) (values : list Q) (v : Q) :
  Forall (fun q => q <= hi) values ->
  floatDiv (sumQ values) (length values) = Ok v -> v <= hi.
Proof.
  intros Hall. unfold floatDiv.
  destruct (length values) as [|n] eqn:En; [discriminate|]. intros [= <-].
  apply Qle_shift_div_r; [apply (@inject_nat_pos (S n)); lia|].
  pose proof (fold_Qplus_upper Hall 0) as Hs. rewrite En in Hs.
  unfold sumQ. cbn [Z.of_nat] in Hs |- *. rewrite Qplus_0_l in Hs. exact Hs.
Qed.

End Means.

Lemma Forall2_Forall_r (A B : Type) (R : A -> B -> Prop) (P : B -> Prop) l l' :
  Forall2 R l l' -> (forall a b, In a l -> R a b -> P b) -> Forall P l'.
Proof.
  induction 1 as [|a b l l' Hab Hall IH]; intros HP; constructor.
  - apply (HP a); [now left|exact Hab].
  - apply IH. intros a' b' Hin Hr. apply (HP a'); [now right|exact Hr].
Qed.

Lemma Forall2_In_l (A B : Type) (R : A -> B -> Prop) l l' a :
  Forall2 R l l' -> In a l -> exists b, In b l' /\ R a b.
Proof.
  induction 1 as [|x y l l' Hxy Hall IH]; intros Hin; [destruct Hin|].
  destruct Hin as [<-|Hin]; [eauto with datatypes|].
  destruct (IH Hin) as (b & Hb & Hr). eauto with datatypes.
Qed.

Lemma EZ_ltb_leb (x y : EZ) : EZ_ltb x y = true -> EZ_leb x y = true.
Proof. intros. ez. Qed.

Section ValueFacts.

Context {GameState : Type}
        `{AbstractGameState GameState} `{MultiAgentSearchAgent GameState}.

Local Abbreviation mmBranch fuel gameState agent depth :=
  (fun action =>
     bind (successor gameState agent action)
          (fun successorGameState =>
             bind (nextAgentOf gameState agent)
                  (fun nextAgent =>
                     bind (if (nextAgent =? 0)%nat
                           then MinimaxAgent.maxValue
                                  fuel successorGameState nextAgent
                                  (depth + 1)%nat
                           else MinimaxAgent.minValue
                                  fuel successorGameState nextAgent
                                  depth%nat)
                          (fun r => ret (fst r))))).

Local Abbreviation emBranch fuel gameState agent depth :=
  (fun action =>
     bind (successor gameState agent action)
          (fun successorGameState =>
             bind (nextAgentOf gameState agent)
                  (fun nextAgent =>
                     let nextDepth :=
                       if (nextAgent =? 0)%nat then (depth + 1)%nat
                       else depth%nat in
                     ExpectimaxAgent.expectimaxValue
                       fuel successorGameState nextAgent nextDepth))).

Lemma emBranch_value fuel gameState agent depth action q :
  snd (emBranch fuel gameState agent depth action) = Ok q ->
  snd (ExpectimaxAgent.expectimaxValue
         fuel (generateSuccessor gameState agent action)
         (nextIndex gameState agent) (nextPly gameState agent depth)) = Ok q.
Proof.
  intros Hc. pose proof (expectimax_child fuel gameState agent depth action) as E.
  cbv beta zeta in Hc, E. rewrite E in Hc.
  destruct (getNumAgents gameState); [discriminate|exact Hc].
Qed.

Lemma mmNext_ply fuel (gameState : GameState) agent depth action :
  mmNext fuel gameState agent depth action
  = if nextIndex gameState agent =? 0
    then MinimaxAgent.maxValue fuel (generateSuccessor gameState agent action)
                               (nextIndex gameState agent)
                               (nextPly gameState agent depth)
    else MinimaxAgent.minValue fuel (generateSuccessor gameState agent action)
                               (nextIndex gameState agent)
                               (nextPly gameState agent depth).
Proof.
  unfold mmNext, nextPly. destruct (nextIndex gameState agent =? 0); reflexivity.
Qed.


Local Abbreviation abBranch fuel gameState agent depth :=
  (fun action alpha beta =>
     bind (successor gameState agent action)
          (fun successorGameState =>
             bind (nextAgentOf gameState agent)
                  (fun nextAgent =>
                     bind (if (nextAgent =? 0)%nat
                           then AlphaBetaAgent.maxValue
                                  fuel successorGameState nextAgent
                                  (depth + 1)%nat alpha beta
                           else AlphaBetaAgent.minValue
                                  fuel successorGameState nextAgent
                                  depth%nat alpha beta)
                          (fun r => ret (fst r))))).

Section Bounds.

Variables lo hi : Z.
Hypothesis evaluation_bounded :
  forall gameState : GameState,
    (lo <= _evaluationFunction gameState <= hi)%Z.

Lemma minimax_bounded fuel :
  (forall s a d v act,
      snd (MinimaxAgent.maxValue fuel s a d) = Ok (v, act) -> boundedBy lo hi v) /\
  (forall s a d v act,
      snd (MinimaxAgent.minValue fuel s a d) = Ok (v, act) -> boundedBy lo hi v).
Proof.
  induction fuel as [|fuel [IHmax IHmin]].
  - split; intros; discriminate.
  - assert (Hbranch : forall s a d x w,
               snd (mmBranch fuel s a d x) = Ok w -> boundedBy lo hi w).
    { intros s a d x w Hc. apply mmBranch_value in Hc.
      destruct Hc as [a' Hn]. unfold mmNext in Hn.
      destruct (nextIndex s a =? 0); eauto. }
    split; intros s a d v act Hrun.
    + rewrite minimax_maxValue_S in Hrun.
      destruct (isLeaf s a d) eqn:Hleaf;
        [injection Hrun as <- <-; apply evaluation_bounded|].
      apply nonleaf_actions in Hleaf. destruct Hleaf as (_ & x & rest & El).
      apply mm_maxLoop_first in Hrun.
      destruct Hrun as [(-> & -> & Hall)|(pre & y & post & _ & _ & Hv & _)].
      * destruct (Hall x) as (w & Hw & Hlt); [rewrite El; now left|].
        apply Hbranch in Hw. destruct w; simpl in Hw; try contradiction.
        discriminate.
      * eauto.
    + rewrite minimax_minValue_S in Hrun.
      destruct (isLeaf s a d) eqn:Hleaf;
        [injection Hrun as <- <-; apply evaluation_bounded|].
      apply nonleaf_actions in Hleaf. destruct Hleaf as (_ & x & rest & El).
      apply mm_minLoop_first in Hrun.
      destruct Hrun as [(-> & -> & Hall)|(pre & y & post & _ & _ & Hv & _)].
      * destruct (Hall x) as (w & Hw & Hlt); [rewrite El; now left|].
        apply Hbranch in Hw. destruct w; simpl in Hw; try contradiction.
        discriminate.
      * eauto.
Qed.

Lemma alphabeta_bounded fuel :
  (forall s a d alpha beta v act,
      snd (AlphaBetaAgent.maxValue fuel s a d alpha beta) = Ok (v, act) ->
      boundedBy lo hi v) /\
  (forall s a d alpha beta v act,
      snd (AlphaBetaAgent.minValue fuel s a d alpha beta) = Ok (v, act) ->
      boundedBy lo hi v).
Proof.
  induction fuel as [|fuel [IHmax IHmin]].
  - split; intros; discriminate.
  - assert (Hbranch : forall s a d x alpha beta w,
               snd (abBranch fuel s a d x alpha beta) = Ok w ->
               boundedBy lo hi w).
    { intros s a d x alpha beta w Hc.
      pose proof (abBranch_outcome fuel s a d x alpha beta) as E.
      cbv beta in Hc, E. rewrite E in Hc. clear E.
      destruct (getNumAgents s); [discriminate|]. unfold abNext in Hc.
      destruct (nextIndex s a =? 0).
      - destruct (snd (AlphaBetaAgent.maxValue _ _ _ _ _ _)) as [[w' a']| |] eqn:En;
          cbn in Hc; try discriminate.
        injection Hc as <-. eapply IHmax; eauto.
      - destruct (snd (AlphaBetaAgent.minValue _ _ _ _ _ _)) as [[w' a']| |] eqn:En;
          cbn in Hc; try discriminate.
        injection Hc as <-. eapply IHmin; eauto. }
    assert (Hfin : forall s a d x alpha beta w,
               snd (abBranch fuel s a d x alpha beta) = Ok w ->
               exists z, w = Fin z).
    { intros s a d x alpha beta w Hc. apply Hbranch in Hc.
      destruct w; simpl in Hc; try contradiction. eauto. }
    split; intros s a d alpha beta v act Hrun.
    + rewrite alphabeta_maxValue_S in Hrun.
      destruct (isLeaf s a d) eqn:Hleaf;
        [injection Hrun as <- <-; apply evaluation_bounded|].
      destruct (nonleaf_actions' _ _ _ Hleaf) as (x & rest & El).
      rewrite El in *.
      apply ab_maxLoop_chosen in Hrun; [|intros; eapply Hfin; eauto].
      destruct Hrun as (y & alpha' & _ & _ & Hv). eauto.
    + rewrite alphabeta_minValue_S in Hrun.
      destruct (isLeaf s a d) eqn:Hleaf;
        [injection Hrun as <- <-; apply evaluation_bounded|].
      destruct (nonleaf_actions' _ _ _ Hleaf) as (x & rest & El).
      rewrite El in *.
      apply ab_minLoop_chosen in Hrun; [|intros; eapply Hfin; eauto].
      destruct Hrun as (y & beta' & _ & _ & Hv). eauto.
Qed.

Lemma expectimax_bounded fuel :
  forall s a d q,
    snd (ExpectimaxAgent.expectimaxValue fuel s a d) = Ok q ->
    (inject_Z lo <= q <= inject_Z hi)%Q.
Proof.
  induction fuel as [|fuel IH]; intros s a d q Hrun; [discriminate|].
  rewrite expectimaxValue_S in Hrun.
  destruct (isLeaf s a d) eqn:Hleaf.
  - injection Hrun as <-. rewrite <- !Zle_Qle. apply evaluation_bounded.
  - destruct (snd (ExpectimaxAgent.collect _ _ _)) as [values| |] eqn:Ec;
      cbn [obind] in Hrun; try discriminate.
    apply collect_spec in Ec. destruct Ec as (new & -> & Hall).
    cbn [app] in Hrun.
    assert (Hvalues : Forall (fun x => (inject_Z lo <= x <= inject_Z hi)%Q) new).
    { eapply Forall2_Forall_r; [exact Hall|].
      intros x qx _ Hqx. cbv beta in Hqx. apply emBranch_value in Hqx. eauto. }
    destruct (a =? 0).
    + apply pymaxQ_spec in Hrun. destruct Hrun as [Hin _].
      rewrite Forall_forall in Hvalues. auto.
    + rewrite (Forall2_length Hall) in Hrun. split.
      * eapply floatDiv_lower; [|exact Hrun].
        eapply Forall_impl; [|exact Hvalues]. intros x [Hx _]. exact Hx.
      * eapply floatDiv_upper; [|exact Hrun].
        eapply Forall_impl; [|exact Hvalues]. intros x [_ Hx]. exact Hx.
Qed.

End Bounds.


End ValueFacts.



(** ** Breadth-first search on any graph *)

Section BfsSoundness.

Variables State Action : Type.
Variable State_eq_dec : forall x y : State, {x = y} + {x <> y}.
Variable problem : SearchProblem State Action.

(** X17: whatever the graph, finite or not, and however long the search is
    left to run, [breadthFirstSearch] raises nothing and is never wrong:
    a path it returns leads from the start to a goal and no path to a goal
    has fewer actions; [None] is returned only when no goal is reachable. *)
Theorem breadthFirstSearch_sound :
  forall (fuel : nat) (result : option (list Action)),
    breadthFirstSearch State_eq_dec fuel problem = Ok result ->
    match result with
    | Some actions =>
        exists goal,
          pathTo problem actions goal /\ isGoal problem goal = true /\
          forall actions' goal',
            pathTo problem actions' goal' -> isGoal problem goal' = true ->
            length actions <= length actions'
    | None => ~ goalReachable problem
    end.
Proof.
  intros fuel result. unfold breadthFirstSearch.
  destruct (isGoal problem (startingState problem)) eqn:Hstart.
  - intros [= <-]. exists (startingState problem).
    repeat split; auto using pathTo_start. intros; simpl; lia.
  - cbn [push app].
    pose proof (@bfsLoop_sound _ _ State_eq_dec problem fuel _ _
                  (inv_init problem)) as Hsound.
    revert Hsound. unfold Node.
    destruct (bfsLoop _ _ _ _ _) as [r| |]; intros Hsound; try discriminate.
    intros [= <-]. exact Hsound.
Qed.

End BfsSoundness.

Lemma breadthFirstSearch_sound_witness :
  breadthFirstSearch Z.eq_dec 40 lineProblem = Ok (Some [EAST; EAST; EAST]) /\
  forall actions' goal',
    pathTo lineProblem actions' goal' -> isGoal lineProblem goal' = true ->
    3 <= length actions'.
Proof.
  split; [vm_compute; reflexivity|].
  destruct (@breadthFirstSearch_sound Z Directions Z.eq_dec lineProblem 40
              (Some [EAST; EAST; EAST]))
    as (goal & _ & _ & Hmin).
  - vm_compute. reflexivity.
  - exact Hmin.
Defined.
